(** * pyperator: ports, connections and packets

    A shallow embedding of [pyperator/utils.py]: connections, ports and
    port registers.

    Python objects with identity (components, ports, connections) are
    natural-number references into an explicit store; attribute mutation
    is store update.  An [async def] is modelled by the outcome of running
    it in a given store: it returns, raises, or suspends at an [await]
    that cannot complete in that store.  Where the event loop decides (the
    set of receive tasks that are done when [asyncio.wait] returns), the
    decision is an explicit argument of the model. *)

From Stdlib Require Import ZArith.
From stdpp Require Import gmap strings list functions.

(** ** Exceptions and outcomes *)

Inductive exn : Set :=
  | TypeError
  | ValueError
  | IndexError
  | AttributeError
  | NotImplementedError
  | StopAsyncIteration
  | PortClosedError
  | PortDisconnectedError
  | PacketOwnedError
  | OutputOnlyError
  | InputOnlyError
  | PortAlreadyExistingError
  | PortNotExistingError.

Inductive outcome (A : Type) : Type :=
  | Return (a : A)
  | Raise (e : exn)
  | Suspend.

Arguments Return {A} a.
Arguments Raise {A} e.
Arguments Suspend {A}.

Definition is_return {A} (o : outcome A) : bool :=
  match o with Return _ => true | _ => false end.

(** ** Identities *)

Abbreviation comp_id := nat.
Abbreviation port_id := nat.
Abbreviation conn_id := nat.

(** The payload of a packet is opaque to every function of the module. *)
Definition payload := Z.

(** ** Packets (pyperator.IP) *)

(** Modelled from the spec: the packet classes of [pyperator/IP.py], which
    is not among the sources.  A packet carries a payload and an owner (a
    component or none); [EndOfStream] is the packet variant without
    payload.  [utils.py] fixes the constructor signatures it uses:
    [InformationPacket(value)], [InformationPacket(value, owner=c)] and
    [EndOfStream()], and reads and writes the attribute [owner]. *)
Inductive packet : Set :=
  | InformationPacket (value : payload) (owner : option comp_id)
  | EndOfStream (owner : option comp_id).

Definition owner (p : packet) : option comp_id :=
  match p with
  | InformationPacket _ o => o
  | EndOfStream o => o
  end.

Definition is_eos (p : packet) : bool :=
  match p with
  | InformationPacket _ _ => false
  | EndOfStream _ => true
  end.

(** [packet.owner = c] *)
Definition set_owner (p : packet) (c : option comp_id) : packet :=
  match p with
  | InformationPacket v _ => InformationPacket v c
  | EndOfStream _ => EndOfStream c
  end.

Global Instance exn_eq_dec : EqDecision exn.
Proof. solve_decision. Defined.

Global Instance packet_eq_dec : EqDecision packet.
Proof. solve_decision. Defined.

(** ** asyncio.Queue

    The queue of the standard library, as far as [utils.py] uses it:
    [maxsize] (a property holding an int), [full], [put], [get],
    [task_done] and [join].  [unfinished_tasks] goes up on every put and
    down on every [task_done]; [join] completes when it is zero. *)

Record Queue : Set := mkQueue {
  maxsize : Z;
  items : list packet;
  unfinished_tasks : nat
}.

(** [asyncio.Queue(maxsize=size)] *)
Definition new_Queue (size : Z) : Queue :=
  {| maxsize := size; items := []; unfinished_tasks := 0 |}.

(** [Queue.full]: a queue with [maxsize <= 0] is never full. *)
Definition full (q : Queue) : bool :=
  if (maxsize q <=? 0)%Z then false
  else (maxsize q <=? Z.of_nat (length (items q)))%Z.

(** [Queue.put] on a queue that is not full. *)
Definition put_nowait (q : Queue) (x : packet) : Queue :=
  {| maxsize := maxsize q;
     items := items q ++ [x];
     unfinished_tasks := S (unfinished_tasks q) |}.

(** [Queue.task_done]: [ValueError] when called more often than items
    were put. *)
Definition task_done (q : Queue) : outcome Queue :=
  match unfinished_tasks q with
  | O => Raise ValueError
  | S n => Return {| maxsize := maxsize q; items := items q;
                     unfinished_tasks := n |}
  end.

(** [Queue.join] completes at once exactly when nothing is unfinished. *)
Definition join_ready (q : Queue) : bool :=
  match unfinished_tasks q with O => true | S _ => false end.

(** Calling an [int] object, as in [q.maxsize()]: a [TypeError]. *)
Definition call_int {A} (n : Z) : outcome A := Raise TypeError.

(** ** IIPConnection *)

Record IIPConnection : Set := mkIIP {
  iip_value : packet;
  iip_source : option packet;
  iip_destination : gset port_id;
  n_rec : Z
}.

(** [IIPConnection.__init__]; the attribute [source] exists only after
    [connect]. *)
Definition new_IIPConnection (value : packet) : IIPConnection :=
  {| iip_value := value; iip_source := None;
     iip_destination := ∅; n_rec := 1 |}.

(** [IIPConnection.receive] *)
Definition IIPConnection_receive (c : IIPConnection)
  : packet * IIPConnection :=
  if (n_rec c <=? 0)%Z then (EndOfStream None, c)
  else (iip_value c,
        {| iip_value := iip_value c; iip_source := iip_source c;
           iip_destination := iip_destination c;
           n_rec := (n_rec c - 1)%Z |}).

(** [IIPConnection.connect] *)
Definition IIPConnection_connect (c : IIPConnection) (destination : port_id)
  : IIPConnection :=
  {| iip_value := iip_value c; iip_source := Some (iip_value c);
     iip_destination := {[destination]} ∪ iip_destination c;
     n_rec := n_rec c |}.

(** The connection after [k] calls of [receive]. *)
Fixpoint poll (k : nat) (c : IIPConnection) : IIPConnection :=
  match k with
  | O => c
  | S k' => poll k' (snd (IIPConnection_receive c))
  end.

(** ** The outcome monad *)

Global Instance outcome_ret : MRet outcome := λ A a, Return a.

Global Instance outcome_bind : MBind outcome := λ A B f m,
  match m with
  | Return a => f a
  | Raise e => Raise e
  | Suspend => Suspend
  end.

(** ** Connection *)

Record Connection : Set := mkConnection {
  _queue : option Queue;
  source : gset port_id;
  destination : gset port_id
}.

(** [Connection.__init__] *)
Definition new_Connection : Connection :=
  {| _queue := None; source := ∅; destination := ∅ |}.

(** [self._queue] replaced by [q]. *)
Definition with_queue (c : Connection) (q : Queue) : Connection :=
  {| _queue := Some q; source := source c; destination := destination c |}.

(** [len(self.destination) > 0]: the test that selects the merging branch
    of [Connection.connect]. *)
Definition already_bound (c : Connection) : bool :=
  0 <? base.size (destination c).

(** [ConnectionInterface.capacity], a property.  A queue object is
    truthy, and its [maxsize] is an int, which the body calls. *)
Definition capacity (c : Connection) : outcome Z :=
  match _queue c with
  | Some q => call_int (maxsize q)
  | None => Return (-1)%Z
  end.

(** The part of [Connection.connect] that works on the connection itself:
    everything before the two [connections.add] calls.  [self.capacity()]
    first reads the property and then calls what it returned. *)
Definition Connection_bind (c : Connection) (src dst : port_id) (size : Z)
  : outcome Connection :=
  if already_bound c then
    cap ← capacity c;
    cap' ← call_int cap;
    if (size =? cap')%Z then
      Return {| _queue := _queue c;
                source := {[src]} ∪ source c;
                destination := {[dst]} ∪ destination c |}
    else Raise ValueError
  else
    Return {| _queue := Some (new_Queue size);
              source := {[src]} ∪ source c;
              destination := {[dst]} ∪ destination c |}.

(** ** Ports and the store *)

Inductive port_class : Set := OutputPort | InputPort.

(** [PortInterface.__init__].  [_iip] is [None] until
    [set_initial_packet] makes it [True]; only its truth value is read.
    [connections] is the set that [__init__] creates and [connect]
    extends. *)
Record port : Set := mkPort {
  class : port_class;
  name : string;
  component : option comp_id;
  open : bool;
  _iip : bool;
  optional : bool;
  connections : gset conn_id
}.

Definition new_port (cl : port_class) (nm : string)
    (c : option comp_id) (opt : bool) : port :=
  {| class := cl; name := nm; component := c; open := true;
     _iip := false; optional := opt; connections := ∅ |}.

Inductive conn_obj : Set :=
  | AConnection (c : Connection)
  | AnIIPConnection (c : IIPConnection).

(** The objects alive in a run: ports and connections by reference.
    [next_conn] is the identity the next constructed connection gets.
    Of a component object the module reads two attributes: [name], which
    [Component.__init__] sets, and [log], which it does not set;
    [loggers] are the components that have a [log]. *)
Record store : Type := mkStore {
  ports : port_id → port;
  conns : conn_id → conn_obj;
  next_conn : conn_id;
  loggers : gset comp_id
}.

Definition set_port (σ : store) (p : port_id) (P : port) : store :=
  {| ports := <[p := P]> (ports σ); conns := conns σ;
     next_conn := next_conn σ; loggers := loggers σ |}.

Definition set_conn (σ : store) (k : conn_id) (o : conn_obj) : store :=
  {| ports := ports σ; conns := <[k := o]> (conns σ);
     next_conn := next_conn σ; loggers := loggers σ |}.

Definition with_connections (P : port) (ks : gset conn_id) : port :=
  {| class := class P; name := name P; component := component P;
     open := open P; _iip := _iip P; optional := optional P;
     connections := ks |}.

Definition with_open (P : port) (b : bool) : port :=
  {| class := class P; name := name P; component := component P;
     open := b; _iip := _iip P; optional := optional P;
     connections := connections P |}.

Definition with_iip (P : port) (b : bool) : port :=
  {| class := class P; name := name P; component := component P;
     open := open P; _iip := b; optional := optional P;
     connections := connections P |}.

Definition with_component (P : port) (c : option comp_id) : port :=
  {| class := class P; name := name P; component := c;
     open := open P; _iip := _iip P; optional := optional P;
     connections := connections P |}.

(** [p.connections.add(k)] *)
Definition add_connection (σ : store) (p : port_id) (k : conn_id) : store :=
  set_port σ p
    (with_connections (ports σ p) ({[k]} ∪ connections (ports σ p))).

(** [PortInterface.is_connected] *)
Definition is_connected (P : port) : bool := 0 <? size (connections P).

(** A call [self.log.debug(...)], [.info(...)] or [.error(...)].
    [PortInterface.log] is [None] for a port without component and
    [self.component.log.getChild(self.name)] otherwise, so the call raises
    [AttributeError] unless the port has a component and the component has
    a [log].  Logging changes nothing in the store; the texts built from
    packets are not modelled. *)
Definition log_call (σ : store) (P : port) : outcome unit :=
  match component P with
  | Some c =>
      if decide (c ∈ loggers σ) then Return tt else Raise AttributeError
  | None => Raise AttributeError
  end.

(** [str(port)], [PortInterface.__str__]: the template reads
    [component.name]. *)
Definition port_str (P : port) : outcome unit :=
  match component P with
  | Some _ => Return tt
  | None => Raise AttributeError
  end.

(** [Connection.connect], called on the object with identity [k]. *)
Definition Connection_connect (σ : store) (k : conn_id)
    (src dst : port_id) (size : Z) : outcome unit * store :=
  match conns σ k with
  | AConnection c =>
      match Connection_bind c src dst size with
      | Return c' =>
          let σ1 := set_conn σ k (AConnection c') in
          let σ2 := add_connection σ1 dst k in
          (Return tt, add_connection σ2 src k)
      | Raise e => (Raise e, σ)
      | Suspend => (Suspend, σ)
      end
  | AnIIPConnection _ => (Raise TypeError, σ)
  end.

(** [Connection()] *)
Definition alloc_Connection (σ : store) : conn_id * store :=
  (next_conn σ,
   {| ports := ports σ;
      conns := <[next_conn σ := AConnection new_Connection]> (conns σ);
      next_conn := S (next_conn σ);
      loggers := loggers σ |}).

(** [OutputPort.connect] *)
Definition OutputPort_connect (σ : store) (self other : port_id) (size : Z)
  : outcome unit * store :=
  let '(new_conn, σ1) := alloc_Connection σ in
  Connection_connect σ1 new_conn self other size.

(** [InputPort.connect] *)
Definition InputPort_connect (σ : store) (self other : port_id) (size : Z)
  : outcome unit * store :=
  let '(new_conn, σ1) := alloc_Connection σ in
  Connection_connect σ1 new_conn other self size.

(** [InputPort.set_initial_packet] *)
Definition set_initial_packet (σ : store) (self : port_id) (value : payload)
  : store :=
  let pkt := InformationPacket value (component (ports σ self)) in
  let conn := IIPConnection_connect (new_IIPConnection pkt) self in
  let k := next_conn σ in
  let σ1 := {| ports := ports σ;
               conns := <[k := AnIIPConnection conn]> (conns σ);
               next_conn := S k;
               loggers := loggers σ |} in
  let σ2 := add_connection σ1 self k in
  set_port σ2 self (with_iip (ports σ2 self) true).

(** ** Sending *)

(** The text of the diagnostic of [Connection.send],
    ["Queue to {} is full".format( *self.destination)]: the first port of
    the set, in the order in which the set is iterated ([elements] is one
    such order), is formatted with [str]; an empty set leaves the
    placeholder without argument, an [IndexError]. *)
Definition full_message (σ : store) (c : Connection) : outcome unit :=
  match elements (destination c) with
  | [] => Raise IndexError
  | d :: _ => port_str (ports σ d)
  end.

(** [for s in self.source: s.log.debug(...)]: for every source port, the
    logger is looked up, then the text is built, then it is logged. *)
Fixpoint log_full (σ : store) (c : Connection) (ss : list port_id)
  : outcome unit :=
  match ss with
  | [] => Return tt
  | s :: ss' =>
      _ ← log_call σ (ports σ s);
      _ ← full_message σ c;
      log_full σ c ss'
  end.

(** [Connection.send] as a task: it completes with the packet queued, or
    fails, or suspends at [put] on a full queue after the diagnostic has
    been logged on every source port. *)
Definition Connection_send (σ : store) (c : Connection) (pkt : packet)
  : outcome Connection :=
  match _queue c with
  | None => Raise AttributeError
  | Some q =>
      if full q then
        _ ← log_full σ c (elements (source c)); Suspend
      else Return (with_queue c (put_nowait q pkt))
  end.

Definition is_IIP (o : conn_obj) : bool :=
  match o with AnIIPConnection _ => true | AConnection _ => false end.

(** The connection object after its send task has run as far as it can. *)
Definition after_send (σ : store) (o : conn_obj) (pkt : packet) : conn_obj :=
  match o with
  | AConnection c =>
      match Connection_send σ c pkt with
      | Return c' => AConnection c'
      | _ => o
      end
  | AnIIPConnection _ => o
  end.

(** Whether the send task on this object is left suspended. *)
Definition send_pending (σ : store) (o : conn_obj) (pkt : packet) : bool :=
  match o with
  | AConnection c =>
      match Connection_send σ c pkt with Suspend => true | _ => false end
  | AnIIPConnection _ => false
  end.

(** [asyncio.wait([conn.send(packet) for conn in self.connections])]: one
    send task per bound connection.  A task that fails keeps its exception
    to itself, [wait] does not raise it. *)
Definition broadcast (σ : store) (ks : gset conn_id) (pkt : packet) : store :=
  {| ports := ports σ;
     conns := λ k, if decide (k ∈ ks) then after_send σ (conns σ k) pkt
                   else conns σ k;
     next_conn := next_conn σ;
     loggers := loggers σ |}.

(** [packet.owner == self.component or packet.owner == None] *)
Definition may_send (P : port) (pkt : packet) : bool :=
  bool_decide (owner pkt = component P) || bool_decide (owner pkt = None).

(** [OutputPort.send_packet].  [IIPConnection.send] takes no packet, so
    building the list of send coroutines already fails on such a
    connection. *)
Definition OutputPort_send_packet (σ : store) (self : port_id) (pkt : packet)
  : outcome unit * store :=
  let P := ports σ self in
  if is_connected P then
    if may_send P pkt then
      if existsb (λ k, is_IIP (conns σ k)) (elements (connections P))
      then (Raise TypeError, σ)
      else
        let σ' := broadcast σ (connections P) pkt in
        if existsb (λ k, send_pending σ (conns σ k) pkt)
                   (elements (connections P))
        then (Suspend, σ')
        else (log_call σ P, σ')
    else
      (log_call σ P ≫= λ _, Raise PacketOwnedError, σ)
  else
    if optional P then (log_call σ P, σ)
    else (log_call σ P ≫= λ _, Raise PortDisconnectedError, σ).

(** [InputPort.send_packet] *)
Definition InputPort_send_packet (σ : store) (self : port_id) (pkt : packet)
  : outcome unit * store :=
  (Raise InputOnlyError, σ).

(** [self.send_packet(packet)] on a port of either class. *)
Definition send_packet (σ : store) (self : port_id) (pkt : packet)
  : outcome unit * store :=
  match class (ports σ self) with
  | OutputPort => OutputPort_send_packet σ self pkt
  | InputPort => InputPort_send_packet σ self pkt
  end.

(** [PortInterface.send].  [InformationPacket(value)] is built without the
    [owner] argument, so the packet has no owner. *)
Definition send (σ : store) (self : port_id) (value : payload)
  : outcome unit * store :=
  send_packet σ self (InformationPacket value None).

(** [OutputPort.close] *)
Definition OutputPort_close (σ : store) (self : port_id)
  : outcome unit * store :=
  let eos := set_owner (EndOfStream None) (component (ports σ self)) in
  match OutputPort_send_packet σ self eos with
  | (Return _, σ1) =>
      (log_call σ1 (ports σ1 self),
       set_port σ1 self (with_open (ports σ1 self) false))
  | r => r
  end.

(** ** Receiving *)

(** [Connection.receive] as a task: [Suspend] while the queue is empty,
    otherwise the head is taken and [task_done] called. *)
Definition Connection_receive (c : Connection) : outcome packet * Connection :=
  match _queue c with
  | None => (Raise AttributeError, c)
  | Some q =>
      match items q with
      | [] => (Suspend, c)
      | x :: rest =>
          let q1 := {| maxsize := maxsize q; items := rest;
                       unfinished_tasks := unfinished_tasks q |} in
          match task_done q1 with
          | Return q2 => (Return x, with_queue c q2)
          | Raise e => (Raise e, with_queue c q1)
          | Suspend => (Suspend, c)
          end
      end
  end.

(** [conn.receive()] on either kind of connection. *)
Definition conn_receive (o : conn_obj) : outcome packet * conn_obj :=
  match o with
  | AConnection c =>
      let '(r, c') := Connection_receive c in (r, AConnection c')
  | AnIIPConnection c =>
      let '(x, c') := IIPConnection_receive c in (Return x, AnIIPConnection c')
  end.

(** A receive task on this object can complete. *)
Definition ready (o : conn_obj) : bool :=
  match fst (conn_receive o) with Suspend => false | _ => true end.

(** The store after the receive tasks on the connections [done] have run
    to completion. *)
Definition complete (σ : store) (done : list conn_id) : store :=
  {| ports := ports σ;
     conns := λ k, if decide (k ∈ done) then snd (conn_receive (conns σ k))
                   else conns σ k;
     next_conn := next_conn σ;
     loggers := loggers σ |}.

(** [asyncio.wait(..., return_when=FIRST_COMPLETED)] over the receive
    tasks of the connections [ks], followed by [done.pop().result()] and
    the cancellation of the pending tasks.

    Which tasks are done when [wait] returns is the event loop's choice
    and is the argument [done], the popped task first.  The choice is
    admissible when the tasks are distinct, belong to [ks] and can all
    complete, and when [done] is empty only if no task can complete (the
    call then stays suspended).  A cancelled task has taken nothing; when
    the popped task has failed, its exception leaves the function before
    the others are cancelled.
    [None]: the choice is not admissible in this store. *)
Definition wait_first (σ : store) (ks : gset conn_id) (done : list conn_id)
  : option (outcome packet * store) :=
  match done with
  | [] =>
      if existsb (λ k, ready (conns σ k)) (elements ks) then None
      else Some (Suspend, σ)
  | w :: _ =>
      if bool_decide (NoDup done)
         && forallb (λ k, bool_decide (k ∈ ks) && ready (conns σ k)) done
      then Some (fst (conn_receive (conns σ w)), complete σ done)
      else None
  end.

Definition has_queue (o : conn_obj) : bool :=
  match o with
  | AConnection c => bool_decide (is_Some (_queue c))
  | AnIIPConnection _ => false
  end.

Definition joined (o : conn_obj) : bool :=
  match o with
  | AConnection c =>
      match _queue c with Some q => join_ready q | None => false end
  | AnIIPConnection _ => false
  end.

(** The [await asyncio.wait([conn._queue.join() for conn in
    self.connections])] of [InputPort.close].  Building the list fails on
    a connection without queue; [asyncio.wait] refuses an empty list with
    [ValueError]; the wait is over when every queue is joined. *)
Definition wait_joins (σ : store) (ks : gset conn_id) : outcome unit :=
  if negb (forallb (λ k, has_queue (conns σ k)) (elements ks))
  then Raise AttributeError
  else if bool_decide (elements ks = []) then Raise ValueError
  else if forallb (λ k, joined (conns σ k)) (elements ks) then Return tt
  else Suspend.

(** [InputPort.close] *)
Definition InputPort_close (σ : store) (self : port_id)
  : outcome unit * store :=
  let P := ports σ self in
  match (if _iip P then Return tt else wait_joins σ (connections P)) with
  | Return _ => (log_call σ P, set_port σ self (with_open P false))
  | Raise e => (Raise e, σ)
  | Suspend => (Suspend, σ)
  end.

(** The rest of [InputPort.receive_packet] once the race has delivered
    [pkt]: from the second [log.debug] to the end. *)
Definition deliver (σ : store) (self : port_id) (pkt : packet)
  : outcome (option packet) * store :=
  match log_call σ (ports σ self) with
  | Return _ =>
      let '(r1, σ1) :=
        if _iip (ports σ self) then InputPort_close σ self
        else (Return tt, σ) in
      match r1 with
      | Return _ =>
          if is_eos pkt then
            match InputPort_close σ1 self with
            | (Return _, σ2) =>
                (log_call σ2 (ports σ2 self)
                   ≫= λ _, Raise StopAsyncIteration,
                 σ2)
            | (Raise e, σ2) => (Raise e, σ2)
            | (Suspend, σ2) => (Suspend, σ2)
            end
          else (Return (Some pkt), σ1)
      | Raise e => (Raise e, σ1)
      | Suspend => (Suspend, σ1)
      end
  | Raise e => (Raise e, σ)
  | Suspend => (Suspend, σ)
  end.

(** [InputPort.receive_packet]; [done] is the event loop's choice in the
    race.  An optional port without connection falls through the function
    and returns [None]. *)
Definition InputPort_receive_packet (σ : store) (self : port_id)
    (done : list conn_id) : option (outcome (option packet) * store) :=
  let P := ports σ self in
  if is_connected P then
    if open P then
      match log_call σ P with
      | Return _ =>
          match wait_first σ (connections P) done with
          | Some (Return pkt, σ1) => Some (deliver σ1 self pkt)
          | Some (Raise e, σ1) => Some (Raise e, σ1)
          | Some (Suspend, σ1) => Some (Suspend, σ1)
          | None => None
          end
      | Raise e => Some (Raise e, σ)
      | Suspend => Some (Suspend, σ)
      end
    else Some (Raise PortClosedError, σ)
  else
    if optional P then Some (Return None, σ)
    else Some (log_call σ P ≫= λ _, Raise PortDisconnectedError, σ).

(** [OutputPort.receive_packet] *)
Definition OutputPort_receive_packet (σ : store) (self : port_id)
  : option (outcome (option packet) * store) :=
  Some (Raise OutputOnlyError, σ).

(** [self.receive_packet()] on a port of either class. *)
Definition receive_packet (σ : store) (self : port_id) (done : list conn_id)
  : option (outcome (option packet) * store) :=
  match class (ports σ self) with
  | InputPort => InputPort_receive_packet σ self done
  | OutputPort => OutputPort_receive_packet σ self
  end.

(** ** PortRegister *)

(** [self.component] and [self.ports] of the register; [reg_ports] is the
    [OrderedDict], in insertion order, with distinct keys. *)
Record PortRegister : Set := mkRegister {
  reg_component : option comp_id;
  reg_ports : list (string * port_id)
}.

(** [PortRegister.__init__] *)
Definition new_PortRegister (c : option comp_id) : PortRegister :=
  {| reg_component := c; reg_ports := [] |}.

(** [d.update({key: v})] on a dict that keeps insertion order: the value
    of an existing key is replaced where it stands, a new key goes last. *)
Fixpoint dict_update {V : Type} (d : list (string * V)) (key : string) (v : V)
  : list (string * V) :=
  match d with
  | [] => [(key, v)]
  | (k, x) :: d' =>
      if decide (k = key) then (k, v) :: d'
      else (k, x) :: dict_update d' key v
  end.

(** [d.get(key)] *)
Fixpoint dict_get {V : Type} (d : list (string * V)) (key : string)
  : option V :=
  match d with
  | [] => None
  | (k, x) :: d' => if decide (k = key) then Some x else dict_get d' key
  end.

(** [PortRegister.add_as].  A component object is truthy, so
    [if port.component] asks whether the port has one.  Assigning the
    attribute of a port object does not fail. *)
Definition add_as (σ : store) (reg : PortRegister) (port : port_id)
    (nm : string) : outcome unit * store * PortRegister :=
  match component (ports σ port) with
  | Some _ => (Raise PortAlreadyExistingError, σ, reg)
  | None =>
      (Return tt,
       set_port σ port (with_component (ports σ port) (reg_component reg)),
       {| reg_component := reg_component reg;
          reg_ports := dict_update (reg_ports reg) nm port |})
  end.

(** [PortRegister.add] *)
Definition add (σ : store) (reg : PortRegister) (port : port_id)
  : outcome unit * store * PortRegister :=
  add_as σ reg port (name (ports σ port)).

(** [PortRegister.__getitem__] *)
Definition getitem (reg : PortRegister) (item : string) : outcome port_id :=
  match dict_get (reg_ports reg) item with
  | Some p => Return p
  | None => Raise PortNotExistingError
  end.

(** [PortRegister.values]: the set of the registered ports.  Python
    leaves the iteration order of a set open; [elements] is one order. *)
Definition values (reg : PortRegister) : list port_id :=
  elements (list_to_set (reg_ports reg).*2 : gset port_id).

(** The ports on which [receive_packets] starts a [receive_packet]. *)
Definition issued (σ : store) (reg : PortRegister) : list port_id :=
  filter (λ p, open (ports σ p) = true) (values reg).

(** The first loop of [receive_packets]: one future per open port, filed
    under the port's name as it is when the loop runs. *)
Definition tasks (σ : store) (reg : PortRegister) : list (string * port_id) :=
  map (λ p, (name (ports σ p), p)) (issued σ reg).

(** The receive tasks, each run to its outcome, one after the other;
    [sched p] is the event loop's choice in the race of port [p].  The
    result is the dict of the futures with their outcomes. *)
Fixpoint run_tasks (σ : store) (ts : list (string * port_id))
    (sched : port_id → list conn_id)
    (futures : list (string * outcome (option packet)))
  : option (list (string * outcome (option packet)) * store) :=
  match ts with
  | [] => Some (futures, σ)
  | (nm, p) :: ts' =>
      match receive_packet σ p (sched p) with
      | Some (r, σ1) => run_tasks σ1 ts' sched (dict_update futures nm r)
      | None => None
      end
  end.

(** The second loop of [receive_packets]: await the futures in the order
    of the dict; the first one that does not return ends the call. *)
Fixpoint await_all (futures : list (string * outcome (option packet)))
    (packets : list (string * option packet))
  : outcome (list (string * option packet)) :=
  match futures with
  | [] => Return packets
  | (k, v) :: futures' =>
      data ← v; await_all futures' (dict_update packets k data)
  end.

(** [PortRegister.receive_packets] *)
Definition receive_packets (σ : store) (reg : PortRegister)
    (sched : port_id → list conn_id)
  : option (outcome (list (string * option packet)) * store) :=
  match run_tasks σ (tasks σ reg) sched [] with
  | Some (futures, σ1) => Some (await_all futures [], σ1)
  | None => None
  end.

(** [PortRegister.__anext__]: a [StopAsyncIteration] is caught and raised
    again, every other outcome passes through. *)
Definition anext (σ : store) (reg : PortRegister)
    (sched : port_id → list conn_id)
  : option (outcome (list (string * option packet)) * store) :=
  match receive_packets σ reg sched with
  | Some (Raise StopAsyncIteration, σ1) => Some (Raise StopAsyncIteration, σ1)
  | r => r
  end.

(** [PortRegister.all_closed] *)
Definition all_closed (σ : store) (reg : PortRegister) : bool :=
  forallb (λ p, negb (open (ports σ p))) (values reg).

(** ** Example stores *)

(** A store without live objects: every reference holds a blank object,
    and the components [10], [11] and [12] have a logger. *)
Definition empty_store : store :=
  {| ports := λ _, new_port InputPort "" None false;
     conns := λ _, AConnection new_Connection;
     next_conn := 0;
     loggers := {[10; 11; 12]} |}.

(** Two output ports [0] and [2] and an input port [1], registered on the
    components [10], [12] and [11]. *)
Definition three_ports : store :=
  set_port
    (set_port
       (set_port empty_store 0 (new_port OutputPort "OUT" (Some 10) false))
       1 (new_port InputPort "IN" (Some 11) false))
    2 (new_port OutputPort "OUT2" (Some 12) false).

(** [ports[0].connect(ports[1], size=5)] *)
Definition wired : store := snd (OutputPort_connect three_ports 0 1 5).

(** [ports[0].close()] on [wired]: the queue to [ports[1]] holds the
    [EndOfStream] of component [10]. *)
Definition one_feed : store := snd (OutputPort_close wired 0).

(** [ports[0].send(42)] on [wired]. *)
Definition fed : store := snd (send wired 0 42%Z).

(** [ports[0].close()] and then [ports[0].send(7)] on [wired]: the queue
    to [ports[1]] holds an [EndOfStream] followed by a data packet. *)
Definition eos_then_data : store := snd (send one_feed 0 7%Z).

(** The input register of component [11] with the port [1] under its
    name. *)
Definition inputs : PortRegister :=
  {| reg_component := Some 11; reg_ports := [("IN"%string, 1)] |}.

(** Two input ports named [IN] that belong to no component yet. *)
Definition loose_ports : store :=
  set_port
    (set_port empty_store 0 (new_port InputPort "IN" None false))
    1 (new_port InputPort "IN" None false).

(** [receive_packet] on port [self] gets as far as the race and the race
    delivers [pkt], leaving the store [σ1]. *)
Definition obtains (σ : store) (self : port_id) (done : list conn_id)
    (σ1 : store) (pkt : packet) : Prop :=
  is_connected (ports σ self) = true
  ∧ open (ports σ self) = true
  ∧ log_call σ (ports σ self) = Return tt
  ∧ wait_first σ (connections (ports σ self)) done = Some (Return pkt, σ1).


(** What a [connect] through a new connection does to the store: the
    connection [k] is the next identity, it carries a queue of its own of
    the requested capacity and exactly this source and destination, both
    ports list it, and no other connection object is touched. *)
Definition links (σ σ' : store) (k : conn_id) (src dst : port_id) (sz : Z)
  : Prop :=
  k = next_conn σ
  ∧ next_conn σ' = S k
  ∧ conns σ' k = AConnection {| _queue := Some (new_Queue sz);
                                source := {[src]} ∪ ∅;
                                destination := {[dst]} ∪ ∅ |}
  ∧ k ∈ connections (ports σ' src)
  ∧ k ∈ connections (ports σ' dst)
  ∧ (∀ j, j ≠ k → conns σ' j = conns σ j)
  ∧ (∀ p, connections (ports σ p) ⊆ connections (ports σ' p)).

(** ** Sequences of calls on one connection *)

(** [await conn.send(x)] for every [x] of [l] in turn, as one task does
    it: the first send that does not complete ends the run. *)
Fixpoint send_each (σ : store) (c : Connection) (l : list packet)
  : outcome Connection :=
  match l with
  | [] => Return c
  | x :: l' => c' ← Connection_send σ c x; send_each σ c' l'
  end.

(** [n] times [await conn.receive()], collecting what is returned. *)
Fixpoint receive_each (c : Connection) (n : nat)
  : outcome (list packet) * Connection :=
  match n with
  | O => (Return [], c)
  | S n' =>
      match Connection_receive c with
      | (Return x, c') =>
          let '(r, c'') := receive_each c' n' in
          (xs ← r; Return (x :: xs), c'')
      | (Raise e, c') => (Raise e, c')
      | (Suspend, c') => (Suspend, c')
      end
  end.

(** The queue counts as unfinished exactly the items it holds: what
    [send] and [receive] keep, since [receive] calls [task_done] right
    after [get]. *)
Definition balanced (c : Connection) : Prop :=
  ∀ q, _queue c = Some q → unfinished_tasks q = length (items q).

(** There is room for [n] more items. *)
Definition room (q : Queue) (n : nat) : Prop :=
  (maxsize q <= 0)%Z ∨ (Z.of_nat (length (items q) + n) <= maxsize q)%Z.

(** ** Receiving a value *)

(** Modelled from the spec: the attribute [value] of a packet of
    [pyperator/IP.py]; an [EndOfStream] has no payload. *)
Definition value (p : packet) : option payload :=
  match p with
  | InformationPacket v _ => Some v
  | EndOfStream _ => None
  end.

(** [PortInterface.receive]: [receive_packet], then [packet.value] (which
    fails on the [None] of an optional port without connection) and
    [packet.drop()]. *)
Definition receive (σ : store) (self : port_id) (done : list conn_id)
  : option (outcome (option payload) * store) :=
  match receive_packet σ self done with
  | Some (Return (Some pkt), σ1) => Some (Return (value pkt), σ1)
  | Some (Return None, σ1) => Some (Raise AttributeError, σ1)
  | Some (Raise e, σ1) => Some (Raise e, σ1)
  | Some (Suspend, σ1) => Some (Suspend, σ1)
  | None => None
  end.

(** ** More of PortRegister *)

(** The result of [dict.pop(key)] and of [set.remove(x)], which raise
    [KeyError] when the key or the element is missing. *)
Inductive key_result (A : Type) : Type :=
  | Found (a : A)
  | KeyError.

Arguments Found {A} a.
Arguments KeyError {A}.

(** [d.pop(key)]: the dict without the key. *)
Fixpoint dict_pop {V : Type} (d : list (string * V)) (key : string)
  : key_result (list (string * V)) :=
  match d with
  | [] => KeyError
  | (k, x) :: d' =>
      if decide (k = key) then Found d'
      else match dict_pop d' key with
           | Found d'' => Found ((k, x) :: d'')
           | KeyError => KeyError
           end
  end.

(** [PortRegister.remove]; the port keeps its [component]. *)
Definition remove (reg : PortRegister) (port_name : string)
  : key_result PortRegister :=
  match dict_pop (reg_ports reg) port_name with
  | Found d => Found {| reg_component := reg_component reg; reg_ports := d |}
  | KeyError => KeyError
  end.

(** ** Component (nodes.py) *)

(** [Component.schedule_receive] and the tasks it starts: a [receive] on
    every port of [self.inputs], open or not, in the order of the
    register, filed under the registered name.  The tasks run one after
    the other; [sched p] is the event loop's choice in the race of [p]. *)
Fixpoint schedule_receive (σ : store) (its : list (string * port_id))
    (sched : port_id → list conn_id)
    (futures : list (string * outcome (option payload)))
  : option (list (string * outcome (option payload)) * store) :=
  match its with
  | [] => Some (futures, σ)
  | (p_name, p) :: its' =>
      match receive σ p (sched p) with
      | Some (r, σ1) =>
          schedule_receive σ1 its' sched (dict_update futures p_name r)
      | None => None
      end
  end.

(** [for k, v in futures.items(): result[k] = await v] *)
Fixpoint await_each {A : Type} (futures : list (string * outcome A))
    (result : list (string * A)) : outcome (list (string * A)) :=
  match futures with
  | [] => Return result
  | (k, v) :: futures' => x ← v; await_each futures' (dict_update result k x)
  end.

(** [Component.receive], on the component whose input register is
    [inputs]. *)
Definition Component_receive (σ : store) (inputs : PortRegister)
    (sched : port_id → list conn_id)
  : option (outcome (list (string * option payload)) * store) :=
  match schedule_receive σ (reg_ports inputs) sched [] with
  | Some (futures, σ1) => Some (await_each futures [], σ1)
  | None => None
  end.

(** A connected input port that has been closed. *)
Definition closed_input (σ : store) (p : port_id) : Prop :=
  class (ports σ p) = InputPort
  ∧ is_connected (ports σ p) = true
  ∧ open (ports σ p) = false.

(** The store after [ports[1].receive_packet()] on [one_feed], which has
    met the [EndOfStream] and closed the port. *)
Definition ended : store :=
  match receive_packet one_feed 1 [0] with
  | Some (_, σ) => σ
  | None => one_feed
  end.

(** ** Disconnecting *)

(** [p.connections.remove(k)] *)
Definition remove_connection (σ : store) (p : port_id) (k : conn_id)
  : key_result store :=
  if decide (k ∈ connections (ports σ p)) then
    Found (set_port σ p
             (with_connections (ports σ p) (connections (ports σ p) ∖ {[k]})))
  else KeyError.

(** One loop of [Connection.disconnect] over the ports [ps]; a [KeyError]
    ends it and leaves the removals made so far. *)
Fixpoint remove_from_each (σ : store) (ps : list port_id) (k : conn_id)
  : key_result unit * store :=
  match ps with
  | [] => (Found tt, σ)
  | p :: ps' =>
      match remove_connection σ p k with
      | Found σ1 => remove_from_each σ1 ps' k
      | KeyError => (KeyError, σ)
      end
  end.

(** [Connection.disconnect], called on the connection [c] with identity
    [self]: first the destinations, then the sources. *)
Definition Connection_disconnect (σ : store) (self : conn_id) (c : Connection)
  : key_result unit * store :=
  match remove_from_each σ (elements (destination c)) self with
  | (Found _, σ1) => remove_from_each σ1 (elements (source c)) self
  | r => r
  end.

(** ** A producer and a consumer *)

(** [for v in l: await out.send(v)] *)
Fixpoint send_values (σ : store) (out : port_id) (l : list payload)
  : outcome unit * store :=
  match l with
  | [] => (Return tt, σ)
  | v :: l' =>
      match send σ out v with
      | (Return _, σ1) => send_values σ1 out l'
      | r => r
      end
  end.

(** A source: it sends the values of [l] and then closes its output. *)
Definition produce (σ : store) (out : port_id) (l : list payload)
  : outcome unit * store :=
  match send_values σ out l with
  | (Return _, σ1) => OutputPort_close σ1 out
  | r => r
  end.

(** A sink that calls [receive_packet] once per entry of [scheds] and
    notes every outcome, whatever it is. *)
Fixpoint poll_port (σ : store) (inp : port_id) (scheds : list (list conn_id))
  : option (list (outcome (option packet)) * store) :=
  match scheds with
  | [] => Some ([], σ)
  | done :: scheds' =>
      match receive_packet σ inp done with
      | Some (r, σ1) =>
          match poll_port σ1 inp scheds' with
          | Some (rs, σ2) => Some (r :: rs, σ2)
          | None => None
          end
      | None => None
      end
  end.

(** The output port [a] and the input port [b], both of components that
    have a logger (their log calls succeed), are joined by the connection
    [k] and by nothing else; [q] is the queue of [k]. *)
Definition pipe (σ : store) (a b : port_id) (k : conn_id) (q : Queue) : Prop :=
  a ≠ b
  ∧ class (ports σ a) = OutputPort
  ∧ class (ports σ b) = InputPort
  ∧ connections (ports σ a) = {[k]}
  ∧ connections (ports σ b) = {[k]}
  ∧ log_call σ (ports σ a) = Return tt
  ∧ log_call σ (ports σ b) = Return tt
  ∧ _iip (ports σ b) = false
  ∧ ∃ c, conns σ k = AConnection c ∧ _queue c = Some q.

(** [ended] after [disconnect()] on the connection of the closed port
    [1]: the port is closed and has no connection. *)
Definition unplugged : store :=
  match conns ended 0 with
  | AConnection c => snd (Connection_disconnect ended 0 c)
  | AnIIPConnection _ => ended
  end.

(** [ports[2].connect(ports[1], size=5)] on [wired], then
    [ports[0].send(10)] and [ports[2].send(20)]: each of the two
    connections of the input port [1] holds one packet. *)
Definition two_feeds : store :=
  let σ1 := snd (OutputPort_connect wired 2 1 5) in
  let σ2 := snd (send σ1 0 10%Z) in
  snd (send σ2 2 20%Z).

(** The packets waiting in the queue of the connection [k]. *)
Definition queued (σ : store) (k : conn_id) : list packet :=
  match conns σ k with
  | AConnection c =>
      match _queue c with Some q => items q | None => [] end
  | AnIIPConnection _ => []
  end.

(** [ports[0].connect(ports[1], size=1)] on [three_ports], then
    [ports[0].send(1)]: the queue of the connection is full. *)
Definition tight : store :=
  snd (send (snd (OutputPort_connect three_ports 0 1 1)) 0 1%Z).

(** * Properties *)

(** ** IIPConnection: single delivery *)

Lemma receive_exhausted (c : IIPConnection) :
  (n_rec c <= 0)%Z → IIPConnection_receive c = (EndOfStream None, c).
Proof.
  intros Hn. unfold IIPConnection_receive.
  destruct (Z.leb_spec (n_rec c) 0); [done | lia].
Qed.

Lemma poll_exhausted (k : nat) (c : IIPConnection) :
  (n_rec c <= 0)%Z → poll k c = c.
Proof.
  intros Hn. induction k as [|k IH]; simpl; [done|].
  by rewrite receive_exhausted.
Qed.

Lemma receive_first (v : packet) :
  IIPConnection_receive (new_IIPConnection v)
  = (v, {| iip_value := v; iip_source := None;
           iip_destination := ∅; n_rec := 0 |}).
Proof. reflexivity. Qed.

(** C3: a connection seeded with [v] returns [v] on the first [receive]
    and an [EndOfStream] packet on every later one, however often it is
    polled; [connect] does not change that. *)
Theorem IIPConnection_single_delivery (v : packet) :
  fst (IIPConnection_receive (new_IIPConnection v)) = v
  ∧ (∀ k : nat,
       fst (IIPConnection_receive (poll (S k) (new_IIPConnection v)))
       = EndOfStream None)
  ∧ (∀ (dst : port_id) (k : nat),
       let c := IIPConnection_connect (new_IIPConnection v) dst in
       fst (IIPConnection_receive c) = v
       ∧ is_eos (fst (IIPConnection_receive (poll (S k) c))) = true).
Proof.
  split; [done|]. split.
  - intros k. simpl. rewrite poll_exhausted by (simpl; lia).
    by rewrite receive_exhausted by (simpl; lia).
  - intros dst k c. split; [done|].
    subst c. simpl. rewrite poll_exhausted by (simpl; lia).
    by rewrite receive_exhausted by (simpl; lia).
Qed.

(** The connection that [set_initial_packet] binds to a port is seeded
    with a packet of the given value, owned by the port's component. *)
Lemma set_initial_packet_conn (σ : store) (p : port_id) (v : payload) :
  let σ' := set_initial_packet σ p v in
  conns σ' (next_conn σ)
  = AnIIPConnection
      (IIPConnection_connect
         (new_IIPConnection (InformationPacket v (component (ports σ p)))) p)
  ∧ next_conn σ ∈ connections (ports σ' p)
  ∧ _iip (ports σ' p) = true.
Proof.
  simpl. unfold set_initial_packet, add_connection, set_port. simpl.
  rewrite !fn_lookup_insert. simpl. split; [done|]. split; [set_solver|done].
Qed.

(** ** Connection.connect on a bound connection *)

Lemma capacity_call_raises (c : Connection) :
  (capacity c ≫= λ cap, call_int (A:=Z) cap) = Raise TypeError.
Proof. unfold capacity. by destruct (_queue c). Qed.

Lemma Connection_bind_bound (c : Connection) (src dst : port_id) (sz : Z) :
  already_bound c = true → Connection_bind c src dst sz = Raise TypeError.
Proof.
  intros Hb. unfold Connection_bind. rewrite Hb.
  unfold capacity. by destruct (_queue c).
Qed.

Lemma Connection_connect_bound (σ : store) (k : conn_id) (c : Connection)
    (src dst : port_id) (sz : Z) :
  conns σ k = AConnection c → already_bound c = true →
  Connection_connect σ k src dst sz = (Raise TypeError, σ).
Proof.
  intros Hk Hb. unfold Connection_connect.
  by rewrite Hk, Connection_bind_bound.
Qed.

(** C5 (the code at the failing input): on the connection made by
    [ports[0].connect(ports[1], size=5)], whose queue has capacity 5, a
    further [connect] with the same capacity 5 raises [TypeError]; so does
    one with capacity 10, where the code means to raise [ValueError].  The
    store is the same afterwards. *)
Theorem connect_matching_capacity_rejected :
  (∃ c, conns wired 0 = AConnection c
        ∧ _queue c = Some (new_Queue 5)
        ∧ source c = {[0]} ∧ destination c = {[1]})
  ∧ Connection_connect wired 0 2 1 5 = (Raise TypeError, wired)
  ∧ Connection_connect wired 0 2 1 10 = (Raise TypeError, wired).
Proof.
  split.
  - eexists. split; [reflexivity|]. simpl. split; [done|]. split; set_solver.
  - split; eapply Connection_connect_bound; try reflexivity.
Qed.

(** ** Port-level connect *)

Lemma add_connection_elem (σ : store) (p q : port_id) (k : conn_id) :
  k ∈ connections (ports (add_connection σ p k) q)
  ↔ q = p ∨ k ∈ connections (ports σ q).
Proof.
  unfold add_connection, set_port. simpl.
  destruct (decide (p = q)) as [->|Hne].
  - rewrite fn_lookup_insert. simpl. rewrite elem_of_union, elem_of_singleton.
    tauto.
  - rewrite fn_lookup_insert_ne by done. split; [by right|].
    intros [->|H]; [congruence|done].
Qed.

Lemma add_connection_mono (σ : store) (p q : port_id) (k : conn_id) :
  connections (ports σ q) ⊆ connections (ports (add_connection σ p k) q).
Proof.
  unfold add_connection, set_port. simpl.
  destruct (decide (p = q)) as [->|Hne].
  - rewrite fn_lookup_insert. simpl. set_solver.
  - by rewrite fn_lookup_insert_ne.
Qed.

Lemma connect_fresh (σ : store) (src dst : port_id) (sz : Z) :
  ∃ σ', Connection_connect (snd (alloc_Connection σ)) (next_conn σ)
          src dst sz = (Return tt, σ')
        ∧ links σ σ' (next_conn σ) src dst sz.
Proof.
  unfold alloc_Connection, Connection_connect. simpl.
  rewrite fn_lookup_insert. simpl.
  eexists. split; [reflexivity|].
  unfold links. split; [done|]. split; [done|]. split.
  { simpl. by rewrite fn_lookup_insert. }
  split. { rewrite add_connection_elem. by left. }
  split. { rewrite !add_connection_elem. right. by left. }
  split.
  { intros j Hj. simpl. by rewrite !fn_lookup_insert_ne. }
  intros p. etrans; [|apply add_connection_mono].
  etrans; [|apply add_connection_mono]. done.
Qed.

(** C10: [OutputPort.connect] and [InputPort.connect] each build a new
    connection, on which the merging branch of [Connection.connect] is not
    taken, and register it on both ports; two connects to the same input
    port leave it with two different connections, each with its own
    queue. *)
Theorem port_connect_new_connection
    (σ : store) (self other : port_id) (sz : Z) :
  (match conns (snd (alloc_Connection σ)) (fst (alloc_Connection σ)) with
   | AConnection c => already_bound c = false
   | AnIIPConnection _ => False
   end)
  ∧ (∃ σ', OutputPort_connect σ self other sz = (Return tt, σ')
           ∧ links σ σ' (next_conn σ) self other sz)
  ∧ (∃ σ', InputPort_connect σ self other sz = (Return tt, σ')
           ∧ links σ σ' (next_conn σ) other self sz)
  ∧ (∀ (a b : port_id) (sa sb : Z),
       let σ1 := snd (OutputPort_connect σ a self sa) in
       let σ2 := snd (OutputPort_connect σ1 b self sb) in
       let k1 := next_conn σ in
       let k2 := next_conn σ1 in
       k1 ≠ k2
       ∧ k1 ∈ connections (ports σ2 self)
       ∧ k2 ∈ connections (ports σ2 self)
       ∧ conns σ2 k1 = AConnection {| _queue := Some (new_Queue sa);
                                      source := {[a]} ∪ ∅;
                                      destination := {[self]} ∪ ∅ |}
       ∧ conns σ2 k2 = AConnection {| _queue := Some (new_Queue sb);
                                      source := {[b]} ∪ ∅;
                                      destination := {[self]} ∪ ∅ |}).
Proof.
  split.
  { simpl. rewrite fn_lookup_insert. reflexivity. }
  split.
  { apply (connect_fresh σ self other sz). }
  split.
  { apply (connect_fresh σ other self sz). }
  intros a b sa sb σ1 σ2 k1 k2.
  destruct (connect_fresh σ a self sa) as (σ1' & E1 & L1).
  destruct (connect_fresh σ1 b self sb) as (σ2' & E2 & L2).
  assert (σ1 = σ1') as Hσ1
    by (subst σ1; change (OutputPort_connect σ a self sa)
          with (Connection_connect (snd (alloc_Connection σ)) (next_conn σ)
                  a self sa); by rewrite E1).
  assert (σ2 = σ2') as Hσ2
    by (subst σ2; change (OutputPort_connect σ1 b self sb)
          with (Connection_connect (snd (alloc_Connection σ1)) (next_conn σ1)
                  b self sb); by rewrite E2).
  destruct L1 as (_ & N1 & C1 & _ & D1 & _ & _).
  destruct L2 as (_ & N2 & C2 & _ & D2 & O2 & M2).
  rewrite <- Hσ1 in *. rewrite <- Hσ2 in *.
  assert (k1 ≠ k2) as Hne by (subst k1 k2; rewrite N1; lia).
  split; [done|]. split; [by apply M2|]. split; [done|].
  split; [|done]. rewrite O2 by done. done.
Qed.

(** ** Sets of connections checked by a boolean function *)

Lemma forallb_elements (f : conn_id → bool) (ks : gset conn_id) :
  forallb f (elements ks) = true ↔ ∀ k, k ∈ ks → f k = true.
Proof.
  rewrite forallb_forall. split.
  - intros H k Hk. apply H, list_elem_of_In, elem_of_elements, Hk.
  - intros H k Hk. apply H, elem_of_elements, list_elem_of_In, Hk.
Qed.

Lemma existsb_elements_false (f : conn_id → bool) (ks : gset conn_id) :
  existsb f (elements ks) = false ↔ ∀ k, k ∈ ks → f k = false.
Proof.
  split.
  - intros H k Hk. apply not_true_is_false. intros Hf.
    assert (existsb f (elements ks) = true) as Hex; [|congruence].
    apply existsb_exists. exists k. split; [|done].
    apply list_elem_of_In, elem_of_elements, Hk.
  - intros H. apply not_true_is_false. intros Hex.
    apply existsb_exists in Hex as (k & Hk & Hf).
    apply list_elem_of_In, elem_of_elements in Hk.
    rewrite (H k Hk) in Hf. done.
Qed.

(** ** Sending: ownership *)

Lemma broadcast_bound (σ : store) (ks : gset conn_id) (pkt : packet)
    (k : conn_id) (c : Connection) (q : Queue) :
  k ∈ ks → conns σ k = AConnection c → _queue c = Some q → full q = false →
  conns (broadcast σ ks pkt) k = AConnection (with_queue c (put_nowait q pkt)).
Proof.
  intros Hk Hc Hq Hf. simpl. rewrite decide_True by done.
  rewrite Hc. simpl. unfold Connection_send. by rewrite Hq, Hf.
Qed.

Lemma broadcast_unbound (σ : store) (ks : gset conn_id) (pkt : packet)
    (k : conn_id) :
  k ∉ ks → conns (broadcast σ ks pkt) k = conns σ k.
Proof. intros Hk. simpl. by rewrite decide_False. Qed.

(** C6 (the code at the failing input): the output port [0] belongs to
    component [10]; [send(42)] on it succeeds, and the packet that reaches
    the queue of its connection has no owner. *)
Theorem send_leaves_owner_unset :
  component (ports wired 0) = Some 10
  ∧ fst (send wired 0 42%Z) = Return tt
  ∧ ∃ c q, conns (snd (send wired 0 42%Z)) 0 = AConnection c
           ∧ _queue c = Some q
           ∧ items q = [InformationPacket 42%Z None]
           ∧ owner (InformationPacket 42%Z None) ≠ component (ports wired 0).
Proof.
  split; [reflexivity|]. split; [reflexivity|].
  eexists _, _. split; [reflexivity|]. split; [reflexivity|].
  split; [reflexivity|]. discriminate.
Qed.

Lemma broadcast_full (σ : store) (ks : gset conn_id) (pkt : packet)
    (k : conn_id) (c : Connection) (q : Queue) :
  conns σ k = AConnection c → _queue c = Some q → full q = true →
  conns (broadcast σ ks pkt) k = conns σ k.
Proof.
  intros Hc Hq Hf. simpl. destruct (decide (k ∈ ks)); [|done].
  rewrite Hc. simpl. unfold Connection_send. rewrite Hq, Hf.
  by destruct (log_full σ c (elements (source c))).
Qed.

(** C7: on a connected output port of component [c], [send_packet] with a
    packet owned by another component delivers nothing, the store is as
    it was, and, the error being logged first, raises [PacketOwnedError]
    when the log call succeeds.  With a packet that has no owner or is
    owned by [c] it never raises that error and runs one send on every
    bound connection (queue connections, as [connect] makes them): every
    queue that is not full has the packet as its new last item, a full
    queue and every connection that is not bound are as before. *)
Theorem send_packet_ownership
    (σ : store) (p : port_id) (c : comp_id) (pkt : packet) :
  class (ports σ p) = OutputPort →
  is_connected (ports σ p) = true →
  component (ports σ p) = Some c →
  (owner pkt ≠ None → owner pkt ≠ Some c →
     snd (send_packet σ p pkt) = σ
     ∧ (log_call σ (ports σ p) = Return tt →
        fst (send_packet σ p pkt) = Raise PacketOwnedError))
  ∧ (owner pkt = None ∨ owner pkt = Some c →
     (∀ k, k ∈ connections (ports σ p) → is_IIP (conns σ k) = false) →
     ∃ o σ',
       send_packet σ p pkt = (o, σ')
       ∧ o ≠ Raise PacketOwnedError
       ∧ (log_call σ (ports σ p) = Return tt → o = Return tt ∨ o = Suspend)
       ∧ ports σ' = ports σ
       ∧ (∀ k c0 q, k ∈ connections (ports σ p) →
            conns σ k = AConnection c0 → _queue c0 = Some q →
            full q = false →
            ∃ q', conns σ' k
                  = AConnection {| _queue := Some q';
                                   source := source c0;
                                   destination := destination c0 |}
                  ∧ items q' = items q ++ [pkt]
                  ∧ maxsize q' = maxsize q)
       ∧ (∀ k c0 q, k ∈ connections (ports σ p) →
            conns σ k = AConnection c0 → _queue c0 = Some q →
            full q = true → conns σ' k = conns σ k)
       ∧ (∀ k, k ∉ connections (ports σ p) → conns σ' k = conns σ k)).
Proof.
  intros Hcl Hcon Hc.
  unfold send_packet, OutputPort_send_packet. rewrite Hcl, Hcon.
  unfold may_send. rewrite Hc. split.
  - intros Hn Ho.
    rewrite bool_decide_eq_false_2 by done.
    rewrite bool_decide_eq_false_2 by done. simpl.
    split; [done|]. by intros ->.
  - intros Ho Hq.
    assert (bool_decide (owner pkt = Some c) || bool_decide (owner pkt = None)
            = true) as ->.
    { destruct Ho as [Ho|Ho]; rewrite Ho.
      - rewrite (bool_decide_eq_true_2 (None = None)) by done.
        apply orb_true_r.
      - by rewrite bool_decide_eq_true_2. }
    rewrite (proj2 (existsb_elements_false _ _) Hq).
    assert (∀ k c0 q, k ∈ connections (ports σ p) →
              conns σ k = AConnection c0 → _queue c0 = Some q →
              full q = false →
              ∃ q', conns (broadcast σ (connections (ports σ p)) pkt) k
                    = AConnection {| _queue := Some q';
                                     source := source c0;
                                     destination := destination c0 |}
                    ∧ items q' = items q ++ [pkt]
                    ∧ maxsize q' = maxsize q) as Hput.
    { intros k c0 q Hk Hk' Hq' Hf.
      rewrite (broadcast_bound _ _ _ _ _ _ Hk Hk' Hq' Hf).
      by exists (put_nowait q pkt). }
    destruct (existsb _ _).
    + eexists _, _. split; [reflexivity|]. split; [done|].
      split; [by right|]. split; [done|]. split; [exact Hput|].
      split; [intros k c0 q _; apply broadcast_full
             |intros k ?; by apply broadcast_unbound].
    + eexists _, _. split; [reflexivity|]. split.
      { unfold log_call. rewrite Hc. by destruct (decide _). }
      split; [intros ->; by left|]. split; [done|]. split; [exact Hput|].
      split; [intros k c0 q _; apply broadcast_full
             |intros k ?; by apply broadcast_unbound].
Qed.

Lemma send_packet_ownership_witness :
  send_packet wired 0 (InformationPacket 7%Z (Some 99))
  = (Raise PacketOwnedError, wired)
  ∧ ∃ o σ', send_packet wired 0 (InformationPacket 7%Z (Some 10)) = (o, σ')
            ∧ (o = Return tt ∨ o = Suspend)
            ∧ ∃ q', conns σ' 0
                    = AConnection {| _queue := Some q';
                                     source := {[0]} ∪ ∅;
                                     destination := {[1]} ∪ ∅ |}
                    ∧ items q' = [] ++ [InformationPacket 7%Z (Some 10)].
Proof.
  split.
  - destruct (proj1 (send_packet_ownership wired 0 10
                       (InformationPacket 7%Z (Some 99))
                       eq_refl eq_refl eq_refl)) as [H1 H2].
    + discriminate.
    + simpl. congruence.
    + specialize (H2 eq_refl).
      destruct (send_packet wired 0 (InformationPacket 7%Z (Some 99)))
        as [o σ']. simpl in H1, H2. by rewrite H1, H2.
  - destruct (proj2 (send_packet_ownership wired 0 10
                       (InformationPacket 7%Z (Some 10))
                       eq_refl eq_refl eq_refl))
      as (o & σ' & Hs & _ & Ho & _ & Hd & _).
    + by right.
    + intros k Hk. apply negb_true_iff. revert k Hk.
      apply forallb_elements. reflexivity.
    + exists o, σ'. split; [exact Hs|]. split; [exact (Ho eq_refl)|].
      destruct (Hd 0 {| _queue := Some (new_Queue 5); source := {[0]} ∪ ∅;
                        destination := {[1]} ∪ ∅ |} (new_Queue 5))
        as (q' & Hq' & Hi & _); [|reflexivity..|].
      * apply elem_of_elements. apply list_elem_of_here.
      * exists q'. split; [exact Hq'|exact Hi].
Defined.

(** ** Closed ports *)

Lemma existsb_ext {A} (f g : A → bool) (l : list A) :
  (∀ x, f x = g x) → existsb f l = existsb g l.
Proof. intros H. induction l as [|x l IH]; simpl; [done|]. by rewrite H, IH. Qed.

Lemma forallb_ext {A} (f g : A → bool) (l : list A) :
  (∀ x, f x = g x) → forallb f l = forallb g l.
Proof. intros H. induction l as [|x l IH]; simpl; [done|]. by rewrite H, IH. Qed.

(** Sending looks at the store only for the loggers and for the
    components of ports. *)
Lemma log_full_ext (σ σ' : store) (c : Connection) (ss : list port_id) :
  loggers σ' = loggers σ →
  (∀ s, component (ports σ' s) = component (ports σ s)) →
  log_full σ' c ss = log_full σ c ss.
Proof.
  intros HL H. induction ss as [|s ss IH]; simpl; [done|].
  unfold log_call, full_message, port_str. rewrite HL, H, IH.
  destruct (elements (destination c)) as [|d ?]; [done|]. by rewrite H.
Qed.

Lemma Connection_send_ext (σ σ' : store) (c : Connection) (pkt : packet) :
  loggers σ' = loggers σ →
  (∀ s, component (ports σ' s) = component (ports σ s)) →
  Connection_send σ' c pkt = Connection_send σ c pkt.
Proof.
  intros HL H. unfold Connection_send. destruct (_queue c) as [q|]; [|done].
  destruct (full q); [|done]. by rewrite (log_full_ext σ σ').
Qed.

Lemma with_open_component (σ : store) (p s : port_id) (b : bool) :
  component (ports (set_port σ p (with_open (ports σ p) b)) s)
  = component (ports σ s).
Proof.
  simpl. destruct (decide (p = s)) as [->|Hne].
  - by rewrite fn_lookup_insert.
  - by rewrite fn_lookup_insert_ne.
Qed.

Lemma OutputPort_send_packet_ports (σ : store) (p : port_id) (pkt : packet) :
  ports (snd (OutputPort_send_packet σ p pkt)) = ports σ
  ∧ loggers (snd (OutputPort_send_packet σ p pkt)) = loggers σ.
Proof.
  unfold OutputPort_send_packet.
  destruct (is_connected (ports σ p)).
  - destruct (may_send (ports σ p) pkt); [|done].
    destruct (existsb _ _); [done|]. by destruct (existsb _ _).
  - by destruct (optional (ports σ p)).
Qed.

Lemma OutputPort_send_packet_ignores_open (σ : store) (p : port_id)
    (b : bool) (pkt : packet) :
  let σb := set_port σ p (with_open (ports σ p) b) in
  fst (OutputPort_send_packet σb p pkt) = fst (OutputPort_send_packet σ p pkt)
  ∧ ∀ k, conns (snd (OutputPort_send_packet σb p pkt)) k
         = conns (snd (OutputPort_send_packet σ p pkt)) k.
Proof.
  intros σb.
  assert (∀ o, after_send σb o pkt = after_send σ o pkt) as Ha.
  { intros [c|c]; [|done]. simpl.
    by rewrite (Connection_send_ext σ σb)
      by (try done; intros s; apply with_open_component). }
  assert (∀ o, send_pending σb o pkt = send_pending σ o pkt) as Hp.
  { intros [c|c]; [|done]. simpl.
    by rewrite (Connection_send_ext σ σb)
      by (try done; intros s; apply with_open_component). }
  unfold OutputPort_send_packet.
  assert (ports σb p = with_open (ports σ p) b) as ->
    by (subst σb; simpl; by rewrite fn_lookup_insert).
  change (conns σb) with (conns σ).
  change (is_connected (with_open (ports σ p) b))
    with (is_connected (ports σ p)).
  change (may_send (with_open (ports σ p) b) pkt)
    with (may_send (ports σ p) pkt).
  change (connections (with_open (ports σ p) b))
    with (connections (ports σ p)).
  change (optional (with_open (ports σ p) b)) with (optional (ports σ p)).
  change (log_call σb (with_open (ports σ p) b))
    with (log_call σ (ports σ p)).
  rewrite (existsb_ext (λ k, send_pending σb (conns σ k) pkt)
             (λ k, send_pending σ (conns σ k) pkt)) by (intros; apply Hp).
  destruct (is_connected (ports σ p)).
  - destruct (may_send (ports σ p) pkt); [|done].
    destruct (existsb _ _); [done|].
    destruct (existsb _ _); (split; [done|]);
      intros k; simpl; destruct (decide _); auto.
  - destruct (optional (ports σ p)); done.
Qed.

Lemma with_open_closed (P : port) : open P = false → with_open P false = P.
Proof. destruct P. simpl. by intros ->. Qed.

(** C2, as amended.  On a closed input port, [receive_packet] raises
    [PortClosedError] and changes nothing if the port is connected,
    whatever the event loop would choose; without connection it never
    raises that error: it returns [None] on an optional port and fails as
    disconnected otherwise (after the log call that precedes that error),
    and changes nothing.  A
    repeated [close] of an input port leaves every port and connection as
    it is.  On a closed output port, [send_packet] and [close] have the
    outcome, and the effect on every connection, that they have on the
    same port when open. *)
Theorem closed_port_operations (σ : store) (p : port_id) :
  open (ports σ p) = false →
  (class (ports σ p) = InputPort →
     (is_connected (ports σ p) = true →
        ∀ done, receive_packet σ p done = Some (Raise PortClosedError, σ))
     ∧ (is_connected (ports σ p) = false →
        ∀ done,
          (optional (ports σ p) = true →
             receive_packet σ p done = Some (Return None, σ))
          ∧ (optional (ports σ p) = false →
             log_call σ (ports σ p) = Return tt →
             receive_packet σ p done = Some (Raise PortDisconnectedError, σ))
          ∧ ∃ r, receive_packet σ p done = Some (r, σ)
                 ∧ r ≠ Raise PortClosedError)
     ∧ (∀ r σ', InputPort_close σ p = (r, σ') →
                conns σ' = conns σ ∧ ∀ q, ports σ' q = ports σ q))
  ∧ (class (ports σ p) = OutputPort →
     let σo := set_port σ p (with_open (ports σ p) true) in
     (∀ pkt,
        fst (send_packet σ p pkt) = fst (send_packet σo p pkt)
        ∧ ∀ k, conns (snd (send_packet σ p pkt)) k
               = conns (snd (send_packet σo p pkt)) k)
     ∧ fst (OutputPort_close σ p) = fst (OutputPort_close σo p)
     ∧ ∀ k, conns (snd (OutputPort_close σ p)) k
            = conns (snd (OutputPort_close σo p)) k).
Proof.
  intros Hop. split.
  - intros Hcl. split; [|split].
    + intros Hcon done.
      unfold receive_packet, InputPort_receive_packet.
      by rewrite Hcl, Hcon, Hop.
    + intros Hcon done.
      unfold receive_packet, InputPort_receive_packet. rewrite Hcl, Hcon.
      split; [intros Ho; by rewrite Ho|].
      split; [intros Ho Hl; by rewrite Ho, Hl|].
      destruct (optional (ports σ p)); eexists; (split; [reflexivity|]);
        [done|].
      unfold log_call. destruct (component (ports σ p)); [|done].
      by destruct (decide _).
    + intros r σ'. unfold InputPort_close.
      destruct (if _iip (ports σ p) then _ else _); intros [= <- <-];
        [|done..].
      split; [done|]. intros q. simpl. rewrite with_open_closed by done.
      destruct (decide (p = q)) as [->|Hne].
      * by rewrite fn_lookup_insert.
      * by rewrite fn_lookup_insert_ne.
  - intros Hcl σo.
    assert (class (ports σo p) = OutputPort) as Hclo
      by (subst σo; simpl; by rewrite fn_lookup_insert).
    split; [|].
    + intros pkt. unfold send_packet. rewrite Hcl, Hclo.
      destruct (OutputPort_send_packet_ignores_open σ p true pkt) as [H1 H2].
      split; [done|]. intros k. by rewrite H2.
    + unfold OutputPort_close.
      assert (component (ports σo p) = component (ports σ p)) as ->
        by apply with_open_component.
      set (eos := set_owner (EndOfStream None) (component (ports σ p))).
      destruct (OutputPort_send_packet_ignores_open σ p true eos) as [H1 H2].
      fold σo in H1, H2.
      destruct (OutputPort_send_packet_ports σ p eos) as [Hp HL].
      destruct (OutputPort_send_packet_ports σo p eos) as [Hpo HLo].
      destruct (OutputPort_send_packet σ p eos) as [r σ1].
      destruct (OutputPort_send_packet σo p eos) as [ro σ1o].
      simpl in *. subst ro.
      destruct r as [[]| |]; simpl; [|done..].
      split; [|done].
      unfold log_call. rewrite Hp, Hpo, HL, HLo.
      subst σo. simpl. by rewrite fn_lookup_insert.
Qed.

Lemma closed_port_operations_witness :
  receive_packet ended 1 [] = Some (Raise PortClosedError, ended)
  ∧ receive_packet unplugged 1 []
    = Some (Raise PortDisconnectedError, unplugged)
  ∧ conns (snd (InputPort_close ended 1)) = conns ended
  ∧ fst (send_packet one_feed 0 (InformationPacket 7%Z None))
    = fst (send_packet
             (set_port one_feed 0 (with_open (ports one_feed 0) true)) 0
             (InformationPacket 7%Z None))
  ∧ fst (OutputPort_close one_feed 0)
    = fst (OutputPort_close
             (set_port one_feed 0 (with_open (ports one_feed 0) true)) 0).
Proof.
  split; [|split; [|split; [|split]]].
  - refine (proj1 (proj1 (closed_port_operations ended 1 _) _) _ []);
      reflexivity.
  - refine (proj1 (proj2 (proj1 (proj2 (proj1 (closed_port_operations
                                                  unplugged 1 _) _))
                            _ [])) _ _); reflexivity.
  - refine (proj1 (proj2 (proj2 (proj1 (closed_port_operations ended 1 _) _))
                     (fst (InputPort_close ended 1))
                     (snd (InputPort_close ended 1)) _));
      [reflexivity..|]. by destruct (InputPort_close ended 1).
  - refine (proj1 (proj1 (proj2 (closed_port_operations one_feed 0 _) _)
                     (InformationPacket 7%Z None))); reflexivity.
  - refine (proj1 (proj2 (proj2 (closed_port_operations one_feed 0 _) _)));
      reflexivity.
Defined.

(** C2 as stated fails in three places.  The output port [0] has been
    closed by [close()]: [send_packet] on it returns normally and queues
    the packet behind the [EndOfStream], and a second [close()] returns
    and queues a second [EndOfStream].  The input port [1] has been closed
    by an [EndOfStream] and its connection disconnected: [receive_packet]
    raises [PortDisconnectedError]. *)
Lemma closed_port_operations_differ :
  (class (ports one_feed 0) = OutputPort
   ∧ open (ports one_feed 0) = false
   ∧ fst (send_packet one_feed 0 (InformationPacket 7%Z None)) = Return tt
   ∧ fst (send_packet one_feed 0 (InformationPacket 7%Z None))
     ≠ Raise PortClosedError
   ∧ ∃ c q,
       conns (snd (send_packet one_feed 0 (InformationPacket 7%Z None))) 0
       = AConnection c
       ∧ _queue c = Some q
       ∧ items q = [EndOfStream (Some 10); InformationPacket 7%Z None])
  ∧ (fst (OutputPort_close one_feed 0) = Return tt
     ∧ ∃ c q,
         conns (snd (OutputPort_close one_feed 0)) 0 = AConnection c
         ∧ _queue c = Some q
         ∧ items q = [EndOfStream (Some 10); EndOfStream (Some 10)])
  ∧ (class (ports unplugged 1) = InputPort
     ∧ open (ports unplugged 1) = false
     ∧ receive_packet unplugged 1 []
       = Some (Raise PortDisconnectedError, unplugged)).
Proof.
  split; [|split].
  - split; [reflexivity|]. split; [reflexivity|]. split; [reflexivity|].
    split; [discriminate|].
    eexists _, _. split; [reflexivity|]. split; reflexivity.
  - split; [reflexivity|].
    eexists _, _. split; [reflexivity|]. split; reflexivity.
  - split; [reflexivity|]. split; reflexivity.
Qed.

(** ** Receiving an EndOfStream *)

Lemma wait_first_ports (σ σ1 : store) (ks : gset conn_id)
    (done : list conn_id) (r : outcome packet) :
  wait_first σ ks done = Some (r, σ1) → ports σ1 = ports σ.
Proof.
  unfold wait_first. destruct done as [|w done].
  - destruct (existsb _ _); [done|]. by intros [= _ <-].
  - destruct (_ && _); [|done]. by intros [= _ <-].
Qed.

Lemma joined_has_queue (o : conn_obj) : joined o = true → has_queue o = true.
Proof.
  destruct o as [c|c]; simpl; [|done].
  destruct (_queue c); [|done]. intros _. by apply bool_decide_eq_true_2.
Qed.

Lemma wait_joins_ready (σ : store) (ks : gset conn_id) :
  0 < size ks → (∀ k, k ∈ ks → joined (conns σ k) = true) →
  wait_joins σ ks = Return tt.
Proof.
  intros Hsz Hj. unfold wait_joins.
  rewrite (proj2 (forallb_elements (λ k, has_queue (conns σ k)) ks))
    by (intros k Hk; by apply joined_has_queue, Hj).
  simpl. rewrite bool_decide_eq_false_2.
  - by rewrite (proj2 (forallb_elements (λ k, joined (conns σ k)) ks)).
  - intros He. apply elements_empty_inv, size_empty_iff in He. lia.
Qed.

Lemma wait_joins_pending (σ : store) (ks : gset conn_id) :
  (∀ k, k ∈ ks → has_queue (conns σ k) = true) →
  (∃ k, k ∈ ks ∧ joined (conns σ k) = false) →
  wait_joins σ ks = Suspend.
Proof.
  intros Hq (k & Hk & Hj). unfold wait_joins.
  rewrite (proj2 (forallb_elements (λ k, has_queue (conns σ k)) ks)) by done.
  simpl. rewrite bool_decide_eq_false_2.
  - destruct (forallb _ _) eqn:Hall; [|done].
    rewrite (forallb_elements (λ k, joined (conns σ k)) ks) in Hall.
    rewrite (Hall k Hk) in Hj. done.
  - intros He. apply elements_empty_inv in He. set_solver.
Qed.

Lemma wait_first_loggers (σ σ1 : store) (ks : gset conn_id)
    (done : list conn_id) (r : outcome packet) :
  wait_first σ ks done = Some (r, σ1) → loggers σ1 = loggers σ.
Proof.
  unfold wait_first. destruct done as [|w done].
  - destruct (existsb _ _); [done|]. by intros [= _ <-].
  - destruct (_ && _); [|done]. by intros [= _ <-].
Qed.

Lemma log_call_loggers (σ σ' : store) (P : port) :
  loggers σ' = loggers σ → log_call σ' P = log_call σ P.
Proof. intros H. unfold log_call. by rewrite H. Qed.

Lemma InputPort_close_completes (σ : store) (p : port_id) :
  log_call σ (ports σ p) = Return tt →
  (if _iip (ports σ p) then Return tt
   else wait_joins σ (connections (ports σ p))) = Return tt →
  InputPort_close σ p
  = (Return tt, set_port σ p (with_open (ports σ p) false)).
Proof. intros Hl Hw. unfold InputPort_close. by rewrite Hw, Hl. Qed.

(** C4, as amended: when [receive_packet] obtains an [EndOfStream] and the
    port holds an initial packet, or every queue bound to the port is
    joined once the race is over, the port is closed and the call raises
    [StopAsyncIteration]; it returns no packet.  While a bound queue still
    has an unfinished item, the call is suspended in [close] and the port
    is still open. *)
Theorem receive_eos_closes
    (σ σ1 : store) (p : port_id) (done : list conn_id) (pkt : packet) :
  class (ports σ p) = InputPort →
  obtains σ p done σ1 pkt →
  is_eos pkt = true →
  (_iip (ports σ p) = true
   ∨ (∀ k, k ∈ connections (ports σ p) → joined (conns σ1 k) = true) →
   ∃ σ2, receive_packet σ p done = Some (Raise StopAsyncIteration, σ2)
         ∧ open (ports σ2 p) = false
         ∧ ∀ k, conns σ2 k = conns σ1 k)
  ∧ (_iip (ports σ p) = false →
     (∀ k, k ∈ connections (ports σ p) → has_queue (conns σ1 k) = true) →
     (∃ k, k ∈ connections (ports σ p) ∧ joined (conns σ1 k) = false) →
     receive_packet σ p done = Some (Suspend, σ1)
     ∧ open (ports σ1 p) = true).
Proof.
  intros Hcl (Hcon & Hop & Hlog & Hw) Heos.
  pose proof (wait_first_ports _ _ _ _ _ Hw) as Hp.
  pose proof (wait_first_loggers _ _ _ _ _ Hw) as HL.
  assert (log_call σ1 (ports σ1 p) = Return tt) as Hlog1
    by (rewrite Hp, (log_call_loggers σ σ1); done).
  unfold receive_packet, InputPort_receive_packet.
  rewrite Hcl, Hcon, Hop, Hlog, Hw.
  unfold deliver. rewrite Hlog1, Heos.
  assert (0 < size (connections (ports σ p))) as Hsz
    by (unfold is_connected in Hcon; by apply Nat.ltb_lt).
  split.
  - intros Hready.
    assert ((if _iip (ports σ1 p) then Return tt
             else wait_joins σ1 (connections (ports σ1 p))) = Return tt)
      as Hjoin.
    { rewrite Hp. destruct (_iip (ports σ p)); [done|].
      destruct Hready as [?|Hj]; [done|]. by apply wait_joins_ready. }
    pose proof (InputPort_close_completes σ1 p Hlog1 Hjoin) as Hclose.
    set (σ2 := set_port σ1 p (with_open (ports σ1 p) false)) in *.
    assert (ports σ2 p = with_open (ports σ1 p) false) as Hp2
      by (subst σ2; simpl; by rewrite fn_lookup_insert).
    assert (log_call σ2 (ports σ2 p) = Return tt) as Hlog2
      by (rewrite Hp2; exact Hlog1).
    assert (InputPort_close σ2 p
            = (Return tt, set_port σ2 p (with_open (ports σ2 p) false)))
      as Hclose2.
    { apply InputPort_close_completes; [done|].
      rewrite Hp2. simpl. destruct (_iip (ports σ1 p)); [done|].
      change (wait_joins σ2 (connections (ports σ1 p)))
        with (wait_joins σ1 (connections (ports σ1 p))). done. }
    set (σ3 := set_port σ2 p (with_open (ports σ2 p) false)) in *.
    assert (ports σ3 p = with_open (ports σ2 p) false) as Hp3
      by (subst σ3; simpl; by rewrite fn_lookup_insert).
    assert (log_call σ3 (ports σ3 p) = Return tt) as Hlog3
      by (rewrite Hp3; exact Hlog2).
    destruct (_iip (ports σ1 p)).
    + rewrite Hclose, Hclose2, Hlog3. exists σ3.
      rewrite Hp3, Hp2. simpl. split; done.
    + rewrite Hclose, Hlog2. exists σ2. rewrite Hp2. simpl. split; done.
  - intros Hiip Hq Hex. rewrite Hp, Hiip.
    unfold InputPort_close. rewrite Hp, Hiip.
    rewrite wait_joins_pending by done.
    split; done.
Qed.

Lemma receive_eos_closes_witness :
  ∃ σ2, receive_packet one_feed 1 [0] = Some (Raise StopAsyncIteration, σ2)
        ∧ open (ports σ2 1) = false
        ∧ ∀ k, conns σ2 k = conns (complete one_feed [0]) k.
Proof.
  refine (proj1 (receive_eos_closes one_feed (complete one_feed [0]) 1 [0]
                   (EndOfStream (Some 10)) _ _ _) _).
  - reflexivity.
  - repeat split; reflexivity.
  - reflexivity.
  - right. apply forallb_elements. reflexivity.
Defined.

(** C4 as stated fails: after [close()] and a further [send(7)] on the
    output side, the queue holds an [EndOfStream] and a data packet.
    [receive_packet] obtains the [EndOfStream], but the call is suspended
    in [close], nothing is raised, and the port is still open. *)
Lemma receive_eos_suspended :
  ∃ σ1, obtains eos_then_data 1 [0] σ1 (EndOfStream (Some 10))
        ∧ receive_packet eos_then_data 1 [0] = Some (Suspend, σ1)
        ∧ open (ports σ1 1) = true.
Proof.
  exists (complete eos_then_data [0]).
  split; [repeat split; reflexivity|]. split; reflexivity.
Qed.

(** ** What a receive leaves alone *)

(** What the race takes depends on the event loop's choice alone: every
    connection whose receive task is done has given up its head, the
    result of the first one is used, and the other connections are as
    before. *)
Lemma wait_first_takes (σ σ1 : store) (ks : gset conn_id)
    (done : list conn_id) (r : outcome packet) :
  wait_first σ ks done = Some (r, σ1) →
  (∀ k, k ∈ done → k ∈ ks ∧ conns σ1 k = snd (conn_receive (conns σ k)))
  ∧ (∀ k, k ∉ done → conns σ1 k = conns σ k).
Proof.
  unfold wait_first. destruct done as [|w done].
  - destruct (existsb _ _); [done|]. intros [= _ <-]. split; [|done].
    intros k Hk. by apply not_elem_of_nil in Hk.
  - destruct (bool_decide _ && forallb _ _) eqn:Hadm; [|done].
    intros [= _ <-]. apply andb_true_iff in Hadm as [_ Hall].
    rewrite forallb_forall in Hall. split.
    + intros k Hk. split.
      * specialize (Hall k (proj1 (list_elem_of_In _ _) Hk)).
        apply andb_true_iff in Hall as [Hin _].
        by apply bool_decide_eq_true_1 in Hin.
      * simpl. by rewrite decide_True.
    + intros k Hk. simpl. by rewrite decide_False.
Qed.

Lemma InputPort_close_frame (σ σ' : store) (p : port_id) (r : outcome unit) :
  InputPort_close σ p = (r, σ') →
  conns σ' = conns σ
  ∧ next_conn σ' = next_conn σ
  ∧ loggers σ' = loggers σ
  ∧ (ports σ' p = ports σ p ∨ ports σ' p = with_open (ports σ p) false)
  ∧ ∀ q, q ≠ p → ports σ' q = ports σ q.
Proof.
  unfold InputPort_close.
  destruct (if _iip (ports σ p) then _ else _); intros [= <- <-];
    try (split; [done|]; split; [done|]; split; [done|];
         split; [by left|done]).
  split; [done|]. split; [done|]. split; [done|]. split.
  - right. simpl. by rewrite fn_lookup_insert.
  - intros q Hq. simpl. by rewrite fn_lookup_insert_ne.
Qed.

Lemma deliver_frame (σ σ' : store) (p : port_id) (pkt : packet)
    (r : outcome (option packet)) :
  deliver σ p pkt = (r, σ') →
  conns σ' = conns σ
  ∧ next_conn σ' = next_conn σ
  ∧ loggers σ' = loggers σ
  ∧ (ports σ' p = ports σ p ∨ ports σ' p = with_open (ports σ p) false)
  ∧ ∀ q, q ≠ p → ports σ' q = ports σ q.
Proof.
  unfold deliver.
  destruct (log_call σ (ports σ p));
    [|intros [= <- <-]; split; [done|]; split; [done|]; split; [done|];
      split; [by left|done]..].
  destruct (if _iip (ports σ p) then InputPort_close σ p else (Return (), σ))
    as [r1 σ1] eqn:H1.
  assert (conns σ1 = conns σ ∧ next_conn σ1 = next_conn σ
          ∧ loggers σ1 = loggers σ
          ∧ (ports σ1 p = ports σ p
             ∨ ports σ1 p = with_open (ports σ p) false)
          ∧ ∀ q, q ≠ p → ports σ1 q = ports σ q)
    as (Hc1 & Hn1 & Hl1 & Hp1 & Hq1).
  { destruct (_iip (ports σ p)).
    - by apply InputPort_close_frame in H1.
    - injection H1 as <- <-. split; [done|]. split; [done|]. split; [done|].
      split; [by left|done]. }
  assert (∀ σ2, conns σ2 = conns σ1 → next_conn σ2 = next_conn σ1 →
            loggers σ2 = loggers σ1 →
            (ports σ2 p = ports σ1 p
             ∨ ports σ2 p = with_open (ports σ1 p) false) →
            (∀ q, q ≠ p → ports σ2 q = ports σ1 q) →
            conns σ2 = conns σ ∧ next_conn σ2 = next_conn σ
            ∧ loggers σ2 = loggers σ
            ∧ (ports σ2 p = ports σ p
               ∨ ports σ2 p = with_open (ports σ p) false)
            ∧ ∀ q, q ≠ p → ports σ2 q = ports σ q) as Hstep.
  { intros σ2 Hc2 Hn2 Hl2 Hp2 Hq2. split; [congruence|]. split; [congruence|].
    split; [congruence|]. split.
    - destruct Hp2 as [->| ->]; [done|]. right.
      destruct Hp1 as [->| ->]; done.
    - intros q Hq. by rewrite Hq2, Hq1. }
  destruct r1 as [[]| |];
    [|intros [= <- <-]; split; [done|]; split; [done|]; done..].
  destruct (is_eos pkt).
  - destruct (InputPort_close σ1 p) as [[[]| |] σ2] eqn:H2;
      apply InputPort_close_frame in H2 as (? & ? & ? & ? & ?);
      intros [= <- <-]; by apply Hstep.
  - intros [= <- <-]. done.
Qed.

(** [receive_packet] on port [p] changes nothing but the open flag of [p],
    which it can only clear, and the connections bound to [p] whose
    receive task was done. *)
Lemma receive_packet_effect
    (σ σ' : store) (p : port_id) (done : list conn_id)
    (r : outcome (option packet)) :
  receive_packet σ p done = Some (r, σ') →
  next_conn σ' = next_conn σ
  ∧ loggers σ' = loggers σ
  ∧ (ports σ' p = ports σ p ∨ ports σ' p = with_open (ports σ p) false)
  ∧ (∀ q, q ≠ p → ports σ' q = ports σ q)
  ∧ (∀ k, k ∉ connections (ports σ p) → conns σ' k = conns σ k)
  ∧ (∀ k, k ∉ done → conns σ' k = conns σ k).
Proof.
  unfold receive_packet, InputPort_receive_packet, OutputPort_receive_packet.
  assert (∀ σ0 : store,
            next_conn σ0 = next_conn σ0
            ∧ loggers σ0 = loggers σ0
            ∧ (ports σ0 p = ports σ0 p
               ∨ ports σ0 p = with_open (ports σ0 p) false)
            ∧ (∀ q, q ≠ p → ports σ0 q = ports σ0 q)
            ∧ (∀ k, k ∉ connections (ports σ0 p) → conns σ0 k = conns σ0 k)
            ∧ (∀ k, k ∉ done → conns σ0 k = conns σ0 k)) as Hsame.
  { intros σ0. split; [done|]. split; [done|]. split; [by left|]. done. }
  destruct (class (ports σ p)); [intros [= <- <-]; apply Hsame|].
  destruct (is_connected (ports σ p)).
  2:{ destruct (optional (ports σ p)); intros [= <- <-]; apply Hsame. }
  destruct (open (ports σ p)); [|intros [= <- <-]; apply Hsame].
  destruct (log_call σ (ports σ p)); [|intros [= <- <-]; apply Hsame..].
  destruct (wait_first σ (connections (ports σ p)) done)
    as [[r1 σ1]|] eqn:Hw; [|by destruct (wait_first _ _ _)].
  pose proof (wait_first_ports _ _ _ _ _ Hw) as Hp.
  pose proof (wait_first_loggers _ _ _ _ _ Hw) as Hl.
  pose proof (wait_first_takes _ _ _ _ _ Hw) as [Hin Hout].
  assert (next_conn σ1 = next_conn σ) as Hn.
  { unfold wait_first in Hw. destruct done as [|w done'].
    - destruct (existsb _ _); [done|]. by injection Hw as _ <-.
    - destruct (_ && _); [|done]. by injection Hw as _ <-. }
  assert (∀ k, k ∉ connections (ports σ p) → conns σ1 k = conns σ k) as Hnb.
  { intros k Hk. apply Hout. intros Hd. by destruct (Hin k Hd). }
  destruct r1 as [pkt| |].
  - intros [= Hd]. apply deliver_frame in Hd as (Hc & Hn' & Hl' & Hp' & Hq').
    rewrite Hc, Hn', Hn, Hl', Hl. rewrite Hp in Hp'. split; [done|].
    split; [done|]. split; [done|].
    split; [intros q Hq; by rewrite Hq', Hp|]. done.
  - intros [= <- <-]. rewrite Hp, Hl. split; [done|]. split; [done|].
    split; [by left|]. done.
  - intros [= <- <-]. rewrite Hp, Hl. split; [done|]. split; [done|].
    split; [by left|]. done.
Qed.

(** ** Dicts *)

Lemma dict_get_update {V} (d : list (string * V)) (k k' : string) (v : V) :
  dict_get (dict_update d k v) k'
  = if decide (k = k') then Some v else dict_get d k'.
Proof.
  induction d as [|[k0 x] d IH]; simpl.
  - by destruct (decide (k = k')).
  - destruct (decide (k0 = k)) as [->|Hne]; simpl.
    + by destruct (decide (k = k')).
    + destruct (decide (k0 = k')) as [->|Hne'].
      * by rewrite decide_False by congruence.
      * apply IH.
Qed.

Lemma dict_get_elem_of {V} (d : list (string * V)) (k : string) (v : V) :
  dict_get d k = Some v → (k, v) ∈ d.
Proof.
  induction d as [|[k0 x] d IH]; simpl; [done|].
  destruct (decide (k0 = k)) as [->|Hne].
  - intros [= ->]. apply list_elem_of_here.
  - intros H. apply list_elem_of_further, IH, H.
Qed.

Lemma elem_of_dict_get {V} (d : list (string * V)) (k : string) (v : V) :
  (k, v) ∈ d → is_Some (dict_get d k).
Proof.
  induction d as [|[k0 x] d IH]; simpl.
  - intros H. by apply not_elem_of_nil in H.
  - intros H. destruct (decide (k0 = k)) as [->|Hne]; [by eexists|].
    apply elem_of_cons in H as [[= <- <-]|H]; [done|]. by apply IH.
Qed.

Lemma dict_get_None {V} (d : list (string * V)) (k : string) :
  dict_get d k = None ↔ k ∉ d.*1.
Proof.
  induction d as [|[k0 x] d IH].
  - split; [intros _; apply not_elem_of_nil|done].
  - change (((k0, x) :: d).*1) with (k0 :: d.*1). simpl.
    destruct (decide (k0 = k)) as [->|Hne].
    + split; [done|]. intros H. exfalso. apply H, list_elem_of_here.
    + split.
      * intros H Hin. apply elem_of_cons in Hin as [?|Hin]; [congruence|].
        by apply IH in H.
      * intros H. apply IH. intros Hin. apply H.
        by apply list_elem_of_further.
Qed.

Lemma forallb_false_elem {A} (f : A → bool) (l : list A) :
  forallb f l = false → ∃ x, x ∈ l ∧ f x = false.
Proof.
  induction l as [|x l IH]; simpl; [done|].
  destruct (f x) eqn:Hx; simpl.
  - intros H. destruct (IH H) as (y & Hy & Hf). exists y.
    split; [by apply list_elem_of_further|done].
  - intros _. exists x. split; [apply list_elem_of_here|done].
Qed.

Lemma dict_update_keys {V} (d : list (string * V)) (k : string) (v : V) :
  NoDup d.*1 → NoDup (dict_update d k v).*1.
Proof.
  induction d as [|[k0 x] d IH]; simpl.
  - intros _. apply NoDup_singleton.
  - change (((k0, x) :: d).*1) with (k0 :: d.*1).
    rewrite list.NoDup_cons. intros [Hk0 Hd].
    destruct (decide (k0 = k)) as [->|Hne].
    + change (((k, v) :: d).*1) with (k :: d.*1). by apply list.NoDup_cons.
    + change (((k0, x) :: dict_update d k v).*1)
        with (k0 :: (dict_update d k v).*1).
      apply list.NoDup_cons. split; [|by apply IH].
      apply dict_get_None. rewrite dict_get_update.
      rewrite decide_False by congruence. by apply dict_get_None.
Qed.

(** ** Registering ports *)

(** C9, as amended: registering a port that already has a component
    raises [PortAlreadyExistingError] and leaves store and register as
    they were.  A port without component is registered without a check of
    its name: it gets the component of the register and the name now maps
    to it, whatever it mapped to before; the other names keep their
    ports. *)
Theorem add_as_outcome
    (σ : store) (reg : PortRegister) (port : port_id) (nm : string) :
  (∀ c, component (ports σ port) = Some c →
     add_as σ reg port nm = (Raise PortAlreadyExistingError, σ, reg))
  ∧ (component (ports σ port) = None →
     ∃ σ' reg',
       add_as σ reg port nm = (Return tt, σ', reg')
       ∧ component (ports σ' port) = reg_component reg
       ∧ dict_get (reg_ports reg') nm = Some port
       ∧ ∀ nm', nm' ≠ nm →
           dict_get (reg_ports reg') nm' = dict_get (reg_ports reg) nm').
Proof.
  unfold add_as. split.
  - intros c Hc. by rewrite Hc.
  - intros Hc. rewrite Hc. eexists _, _. split; [reflexivity|].
    split; [simpl; by rewrite fn_lookup_insert|].
    simpl. split.
    + rewrite dict_get_update. by rewrite decide_True.
    + intros nm' Hne. rewrite dict_get_update. by rewrite decide_False.
Qed.

Lemma add_as_outcome_witness :
  add_as wired inputs 1 "IN" = (Raise PortAlreadyExistingError, wired, inputs).
Proof.
  refine (proj1 (add_as_outcome wired inputs 1 "IN") 11 _). reflexivity.
Defined.

(** C9 as stated fails: the register of component [10] holds the port [0]
    under the name [IN]; adding the port [1], which has the same name and
    no component, returns normally, and [IN] now maps to the port [1]. *)
Lemma add_same_name_accepted :
  let '(_, σ1, reg1) := add loose_ports (new_PortRegister (Some 10)) 0 in
  dict_get (reg_ports reg1) "IN" = Some 0
  ∧ name (ports σ1 1) = "IN"%string
  ∧ ∃ σ2 reg2, add σ1 reg1 1 = (Return tt, σ2, reg2)
               ∧ reg_ports reg2 = [("IN"%string, 1)].
Proof.
  simpl. split; [reflexivity|]. split; [reflexivity|].
  eexists _, _. split; reflexivity.
Qed.

(** ** Receiving on all ports of a register *)

Lemma issued_spec (σ : store) (reg : PortRegister) (p : port_id) :
  p ∈ issued σ reg ↔ p ∈ (reg_ports reg).*2 ∧ open (ports σ p) = true.
Proof.
  unfold issued, values. rewrite list_elem_of_filter.
  rewrite elem_of_elements, elem_of_list_to_set. tauto.
Qed.

Lemma elem_of_dict_update {V} (d : list (string * V)) (k k' : string)
    (v v' : V) :
  (k', v') ∈ dict_update d k v → (k', v') = (k, v) ∨ (k', v') ∈ d.
Proof.
  induction d as [|[k0 x] d IH]; simpl.
  - intros H. apply elem_of_cons in H as [H|H]; [by left|].
    by apply not_elem_of_nil in H.
  - destruct (decide (k0 = k)) as [->|Hne]; intros H;
      apply elem_of_cons in H as [H|H].
    + by left.
    + right. by apply list_elem_of_further.
    + right. rewrite H. apply list_elem_of_here.
    + destruct (IH H) as [?|?]; [by left|right].
      by apply list_elem_of_further.
Qed.

(** A packet that [receive_packet] returns is not an [EndOfStream]. *)
Lemma deliver_data (σ σ' : store) (p : port_id) (pkt pkt' : packet) :
  deliver σ p pkt = (Return (Some pkt'), σ') → is_eos pkt' = false.
Proof.
  unfold deliver. destruct (log_call σ (ports σ p)); [|done..].
  destruct (if _iip (ports σ p) then InputPort_close σ p else (Return (), σ))
    as [[?| |] σ1]; [|done..].
  destruct (is_eos pkt) eqn:He.
  - destruct (InputPort_close σ1 p) as [[?| |] σ2]; [|done..].
    by destruct (log_call σ2 (ports σ2 p)).
  - by intros [= <- _].
Qed.

Lemma receive_packet_data (σ σ' : store) (p : port_id) (done : list conn_id)
    (pkt : packet) :
  receive_packet σ p done = Some (Return (Some pkt), σ') →
  is_eos pkt = false.
Proof.
  unfold receive_packet, InputPort_receive_packet, OutputPort_receive_packet.
  destruct (class (ports σ p)); [done|].
  destruct (is_connected (ports σ p)).
  - destruct (open (ports σ p)); [|done].
    destruct (log_call σ (ports σ p)); [|done..].
    destruct (wait_first _ _ _) as [[[x| |] σ1]|]; [|done..].
    intros [= H]. by eapply deliver_data.
  - destruct (optional (ports σ p)); [done|].
    by destruct (log_call σ (ports σ p)).
Qed.

Lemma dict_update_new {V} (d : list (string * V)) (k : string) (v : V) :
  k ∉ d.*1 → dict_update d k v = d ++ [(k, v)].
Proof.
  induction d as [|[k0 x] d IH]; simpl; [done|].
  change (((k0, x) :: d).*1) with (k0 :: d.*1).
  intros Hk. apply not_elem_of_cons in Hk as [Hne Hk].
  rewrite decide_False by congruence. by rewrite IH.
Qed.

Lemma run_tasks_keys (σ σ' : store) (ts : list (string * port_id))
    (sched : port_id → list conn_id)
    (futs futs' : list (string * outcome (option packet))) :
  run_tasks σ ts sched futs = Some (futs', σ') →
  (NoDup futs.*1 → NoDup futs'.*1)
  ∧ ∀ nm, is_Some (dict_get futs' nm)
          ↔ is_Some (dict_get futs nm) ∨ ∃ p, (nm, p) ∈ ts.
Proof.
  revert σ futs. induction ts as [|[nm0 p0] ts IH]; intros σ futs; simpl.
  - intros [= <- <-]. split; [done|]. intros nm. split; [by left|].
    intros [H|(p & H)]; [done|]. by apply not_elem_of_nil in H.
  - destruct (receive_packet σ p0 (sched p0)) as [[r σ1]|] eqn:Hr; [|done].
    intros Hrun. destruct (IH _ _ Hrun) as [H1 H2]. split.
    + intros Hnd. by apply H1, dict_update_keys.
    + intros nm. rewrite H2, dict_get_update. split.
      * intros [H|(p & H)].
        -- destruct (decide (nm0 = nm)) as [->|Hne]; [|by left].
           right. exists p0. apply list_elem_of_here.
        -- right. exists p. by apply list_elem_of_further.
      * intros [H|(p & H)].
        -- left. by destruct (decide (nm0 = nm)).
        -- apply elem_of_cons in H as [[= -> ->]|H].
           ++ left. by rewrite decide_True.
           ++ right. by exists p.
Qed.

(** The store in which the receive on a port runs differs from the store
    at the call only by what the receives on the ports before it did. *)
Lemma run_tasks_each (σ0 : store) (sched : port_id → list conn_id)
    (ts : list (string * port_id)) :
  ∀ (seen : list port_id) (σ σ' : store)
    (futs futs' : list (string * outcome (option packet))),
    NoDup (seen ++ ts.*2) →
    loggers σ = loggers σ0 →
    (∀ q, q ∉ seen → ports σ q = ports σ0 q) →
    (∀ k, (∀ q, q ∈ seen → k ∉ connections (ports σ0 q)) →
          conns σ k = conns σ0 k) →
    run_tasks σ ts sched futs = Some (futs', σ') →
    ∀ nm o, (nm, o) ∈ futs' →
      (nm, o) ∈ futs
      ∨ ∃ p σa σb,
          (nm, p) ∈ ts
          ∧ receive_packet σa p (sched p) = Some (o, σb)
          ∧ ports σa p = ports σ0 p
          ∧ loggers σa = loggers σ0
          ∧ ∀ k, (∀ q, q ∈ seen ++ ts.*2 → q ≠ p →
                       k ∉ connections (ports σ0 q)) →
                 conns σa k = conns σ0 k.
Proof.
  induction ts as [|[nm0 p0] ts IH];
    intros seen σ σ' futs futs' Hnd Hl Hp Hk; simpl.
  - intros [= <- <-] nm o Hin. by left.
  - destruct (receive_packet σ p0 (sched p0)) as [[r σ1]|] eqn:Hr; [|done].
    intros Hrun nm o Hin.
    change (((nm0, p0) :: ts).*2) with (p0 :: ts.*2) in *.
    assert (p0 ∉ seen) as Hp0.
    { apply list.NoDup_app in Hnd as (_ & Hd & _). intros Hs.
      apply (Hd p0 Hs). apply list_elem_of_here. }
    destruct (receive_packet_effect _ _ _ _ _ Hr)
      as (_ & Hl1 & _ & Hq1 & Hk1 & _).
    assert (seen ++ p0 :: ts.*2 = (seen ++ [p0]) ++ ts.*2) as Happ
      by (by rewrite <- app_assoc).
    assert (∀ q, q ∉ seen ++ [p0] → ports σ1 q = ports σ0 q) as Hp1.
    { intros q Hq. rewrite not_elem_of_app in Hq. destruct Hq as [Hq Hne].
      rewrite Hq1; [by apply Hp|].
      intros ->. apply Hne. apply list_elem_of_here. }
    assert (∀ k, (∀ q, q ∈ seen ++ [p0] → k ∉ connections (ports σ0 q)) →
                 conns σ1 k = conns σ0 k) as Hk1'.
    { intros k Hq. rewrite Hk1.
      - apply Hk. intros q Hs. apply Hq. apply elem_of_app. by left.
      - rewrite (Hp p0 Hp0). apply Hq. apply elem_of_app. right.
        apply list_elem_of_here. }
    assert (NoDup ((seen ++ [p0]) ++ ts.*2)) as Hnd1 by (by rewrite <- Happ).
    assert (loggers σ1 = loggers σ0) as Hl1' by congruence.
    destruct (IH (seen ++ [p0]) σ1 σ' (dict_update futs nm0 r) futs'
                Hnd1 Hl1' Hp1 Hk1' Hrun nm o Hin)
      as [Hd|(p & σa & σb & Hin' & Hra & Hpa & Hla & Hka)].
    + apply elem_of_dict_update in Hd as [[= -> ->]|Hd]; [|by left].
      right. exists p0, σ, σ1. split; [apply list_elem_of_here|].
      split; [done|]. split; [by apply Hp|]. split; [done|].
      intros k Hq. apply Hk. intros q Hs. apply Hq.
      * apply elem_of_app. by left.
      * by intros ->.
    + right. exists p, σa, σb. split; [by apply list_elem_of_further|].
      split; [done|]. split; [done|]. split; [done|].
      intros k Hq. apply Hka. intros q Hs. apply Hq.
      apply elem_of_app in Hs as [Hs|Hs];
        [apply elem_of_app in Hs as [Hs|Hs]|].
      * apply elem_of_app. by left.
      * apply elem_of_cons in Hs as [->|Hs];
          [|by apply not_elem_of_nil in Hs].
        apply elem_of_app. right. apply list_elem_of_here.
      * apply elem_of_app. right. by apply list_elem_of_further.
Qed.

(** Every connection whose receive task was done in the race has given up
    its head. *)
Lemma receive_packet_takes
    (σ σ' : store) (p : port_id) (done : list conn_id)
    (r : outcome (option packet)) :
  receive_packet σ p done = Some (r, σ') →
  class (ports σ p) = InputPort →
  is_connected (ports σ p) = true →
  open (ports σ p) = true →
  log_call σ (ports σ p) = Return tt →
  ∀ k, k ∈ done → conns σ' k = snd (conn_receive (conns σ k)).
Proof.
  unfold receive_packet, InputPort_receive_packet.
  intros Hr Hcl Hcon Hop Hlog k Hk. rewrite Hcl, Hcon, Hop, Hlog in Hr.
  destruct (wait_first σ (connections (ports σ p)) done)
    as [[r1 σ1]|] eqn:Hw; [|done].
  destruct (wait_first_takes _ _ _ _ _ Hw) as [Hin _].
  destruct (Hin k Hk) as [_ <-].
  destruct r1 as [pkt| |].
  - injection Hr as Hd. apply deliver_frame in Hd as (-> & _). done.
  - by injection Hr as _ <-.
  - by injection Hr as _ <-.
Qed.

Lemma receive_packet_connections
    (σ σ' : store) (p q : port_id) (done : list conn_id)
    (r : outcome (option packet)) :
  receive_packet σ p done = Some (r, σ') →
  connections (ports σ' q) = connections (ports σ q).
Proof.
  intros Hr.
  destruct (receive_packet_effect _ _ _ _ _ Hr) as (_ & _ & Hp & Hq & _).
  destruct (decide (q = p)) as [->|Hne]; [|by rewrite Hq].
  by destruct Hp as [->| ->].
Qed.

Lemma run_tasks_frame (sched : port_id → list conn_id)
    (ts : list (string * port_id)) :
  ∀ (σ σ' : store) (futs futs' : list (string * outcome (option packet))),
    run_tasks σ ts sched futs = Some (futs', σ') →
    (∀ q, q ∉ ts.*2 → ports σ' q = ports σ q)
    ∧ (∀ k, (∀ q, q ∈ ts.*2 → k ∉ connections (ports σ q)) →
            conns σ' k = conns σ k).
Proof.
  induction ts as [|[nm0 p0] ts IH]; intros σ σ' futs futs'; simpl.
  - by intros [= _ <-].
  - destruct (receive_packet σ p0 (sched p0)) as [[r σ1]|] eqn:Hr; [|done].
    intros Hrun. destruct (IH _ _ _ _ Hrun) as [Hp Hk].
    destruct (receive_packet_effect _ _ _ _ _ Hr) as (_ & _ & _ & Hq1 & Hk1 & _).
    split.
    + intros q Hq. apply not_elem_of_cons in Hq as [Hne Hq].
      by rewrite Hp, Hq1.
    + intros k Hq. rewrite Hk.
      * apply Hk1, Hq, list_elem_of_here.
      * intros q Hin. rewrite (receive_packet_connections _ _ _ q _ _ Hr).
        by apply Hq, list_elem_of_further.
Qed.

Lemma run_tasks_takes (sched : port_id → list conn_id)
    (ts : list (string * port_id)) :
  ∀ (σ σ' : store) (futs futs' : list (string * outcome (option packet))),
    NoDup ts.*2 →
    run_tasks σ ts sched futs = Some (futs', σ') →
    ∀ p k,
      p ∈ ts.*2 →
      class (ports σ p) = InputPort →
      is_connected (ports σ p) = true →
      open (ports σ p) = true →
      log_call σ (ports σ p) = Return tt →
      k ∈ sched p →
      (∀ q, q ∈ ts.*2 → q ≠ p → k ∉ connections (ports σ q)) →
      conns σ' k = snd (conn_receive (conns σ k)).
Proof.
  induction ts as [|[nm0 p0] ts IH]; intros σ σ' futs futs' Hnd; simpl.
  - intros _ p k Hp. by apply not_elem_of_nil in Hp.
  - destruct (receive_packet σ p0 (sched p0)) as [[r σ1]|] eqn:Hr; [|done].
    intros Hrun p k Hp Hcl Hcon Hop Hlog Hk Hothers.
    apply list.NoDup_cons in Hnd as [Hp0 Hnd].
    destruct (receive_packet_effect _ _ _ _ _ Hr)
      as (_ & Hl1 & _ & Hq1 & Hk1 & _).
    assert (∀ q, q ∈ ts.*2 → ports σ1 q = ports σ q) as Hsame.
    { intros q Hq. apply Hq1. by intros ->. }
    apply elem_of_cons in Hp as [->|Hp].
    + destruct (run_tasks_frame _ _ _ _ _ _ Hrun) as [_ Hfr].
      rewrite Hfr.
      * by eapply receive_packet_takes.
      * intros q Hq. rewrite (Hsame q Hq).
        apply Hothers; [by apply list_elem_of_further|by intros ->].
    + assert (p ≠ p0) as Hne by (by intros ->).
      rewrite (IH _ _ _ _ Hnd Hrun p k Hp).
      * rewrite Hk1; [done|].
        apply Hothers; [apply list_elem_of_here|done].
      * by rewrite (Hsame p Hp).
      * by rewrite (Hsame p Hp).
      * by rewrite (Hsame p Hp).
      * rewrite (log_call_loggers σ σ1) by done. by rewrite (Hsame p Hp).
      * done.
      * intros q Hq Hqp. rewrite (Hsame q Hq).
        apply Hothers; [by apply list_elem_of_further|done].
Qed.

Lemma await_all_returns
    (futs : list (string * outcome (option packet)))
    (acc m : list (string * option packet)) :
  await_all futs acc = Return m →
  ∀ nm o, (nm, o) ∈ futs → is_return o = true.
Proof.
  revert acc. induction futs as [|[k o] futs IH]; intros acc; simpl.
  - intros _ ?? H. by apply not_elem_of_nil in H.
  - destruct o as [v| |]; simpl; [|done..].
    intros Hm nm o Hin. apply elem_of_cons in Hin as [[= -> ->]|Hin]; [done|].
    by eapply IH.
Qed.

Lemma all_return_values (futs : list (string * outcome (option packet))) :
  (∀ nm o, (nm, o) ∈ futs → is_return o = true) →
  ∃ m : list (string * option packet), futs = prod_map id Return <$> m.
Proof.
  induction futs as [|[k o] futs IH]; intros H.
  - by exists [].
  - destruct IH as [m ->].
    { intros nm o' Hin. eapply H. by apply list_elem_of_further. }
    pose proof (H k o (list_elem_of_here _ _)) as Ho.
    destruct o as [v| |]; [|done..]. by exists ((k, v) :: m).
Qed.

Lemma values_keys (m : list (string * option packet)) :
  (prod_map id Return <$> m : list (string * outcome (option packet))).*1
  = m.*1.
Proof. induction m as [|[k v] m IH]; [done|]. simpl. f_equal. exact IH. Qed.

Lemma await_all_values (m acc : list (string * option packet)) :
  NoDup (acc.*1 ++ m.*1) →
  await_all (prod_map id Return <$> m) acc = Return (acc ++ m).
Proof.
  revert acc. induction m as [|[k v] m IH]; intros acc Hnd; simpl.
  - by rewrite app_nil_r.
  - change (((k, v) :: m).*1) with (k :: m.*1) in Hnd.
    assert (k ∉ acc.*1) as Hk.
    { apply list.NoDup_app in Hnd as (_ & Hd & _). intros Hin.
      apply (Hd k Hin). apply list_elem_of_here. }
    rewrite (dict_update_new acc k v Hk), IH.
    + by rewrite <- app_assoc.
    + rewrite fmap_app, <- app_assoc. done.
Qed.

(** The await loop ends with the first future that does not return. *)
Lemma await_all_first
    (pre post : list (string * outcome (option packet)))
    (nm : string) (o : outcome (option packet))
    (acc : list (string * option packet)) :
  (∀ nm' o', (nm', o') ∈ pre → is_return o' = true) →
  (∀ e, o = Raise e → await_all (pre ++ (nm, o) :: post) acc = Raise e)
  ∧ (o = Suspend → await_all (pre ++ (nm, o) :: post) acc = Suspend).
Proof.
  revert acc. induction pre as [|[k v] pre IH]; intros acc Hpre; simpl.
  - split; [intros e ->|intros ->]; done.
  - pose proof (Hpre k v (list_elem_of_here _ _)) as Hv.
    destruct v as [x| |]; [|done..]. simpl. apply IH.
    intros nm' o' Hin. eapply Hpre. by apply list_elem_of_further.
Qed.

Lemma tasks_spec (σ : store) (reg : PortRegister) (nm : string)
    (p : port_id) :
  (nm, p) ∈ tasks σ reg ↔ p ∈ issued σ reg ∧ name (ports σ p) = nm.
Proof.
  unfold tasks. change (map ?f ?l) with (f <$> l).
  rewrite list_elem_of_fmap. split.
  - intros (q & [= -> ->] & Hq). done.
  - intros [Hp <-]. by exists p.
Qed.

Lemma tasks_ports (σ : store) (reg : PortRegister) :
  (tasks σ reg).*2 = issued σ reg.
Proof.
  unfold tasks. change (map ?f ?l) with (f <$> l).
  rewrite <- list_fmap_compose.
  replace (snd ∘ (λ p, (name (ports σ p), p))) with (@id port_id) by done.
  by rewrite list_fmap_id.
Qed.

(** C8, as amended: [receive_packets] starts one [receive_packet] on every
    port of the register that is open, and on no other, and files the
    future under the name of the port.  Each future is the outcome of
    [receive_packet] on its port, in a store that differs from the one at
    the call only by what the receives on the other open ports of the
    register did to their own flags and connections.  When the call is
    over, every connection whose receive task was done in the race of its
    port has given up its head, and what is bound to no open port of the
    register is as before.  The futures are awaited in the order in which
    they were filed.  The call returns a mapping exactly when every future
    returned; the mapping then holds, under the same names and in the same
    order, what the futures returned: a packet that is not an
    [EndOfStream], or [None].  Otherwise the call ends with the first
    future that did not return: it raises what that future raised (as on
    stream termination), or stays suspended with it. *)
Theorem receive_packets_outcome
    (σ σ' : store) (reg : PortRegister) (sched : port_id → list conn_id)
    (r : outcome (list (string * option packet))) :
  receive_packets σ reg sched = Some (r, σ') →
  ∃ (ps : list port_id) (futures : list (string * outcome (option packet))),
    NoDup ps
    ∧ (∀ p, p ∈ ps ↔ p ∈ (reg_ports reg).*2 ∧ open (ports σ p) = true)
    ∧ run_tasks σ ((λ p, (name (ports σ p), p)) <$> ps) sched []
      = Some (futures, σ')
    ∧ NoDup futures.*1
    ∧ (∀ nm, is_Some (dict_get futures nm)
             ↔ ∃ p, p ∈ ps ∧ name (ports σ p) = nm)
    ∧ (∀ nm o, (nm, o) ∈ futures →
         ∃ p σa σb,
           p ∈ ps ∧ name (ports σ p) = nm
           ∧ receive_packet σa p (sched p) = Some (o, σb)
           ∧ ports σa p = ports σ p
           ∧ loggers σa = loggers σ
           ∧ ∀ k, (∀ q, q ∈ ps → q ≠ p → k ∉ connections (ports σ q)) →
                  conns σa k = conns σ k)
    ∧ (∀ p k, p ∈ ps →
         class (ports σ p) = InputPort →
         is_connected (ports σ p) = true →
         log_call σ (ports σ p) = Return tt →
         k ∈ sched p →
         (∀ q, q ∈ ps → q ≠ p → k ∉ connections (ports σ q)) →
         conns σ' k = snd (conn_receive (conns σ k)))
    ∧ (∀ q, q ∉ ps → ports σ' q = ports σ q)
    ∧ (∀ k, (∀ q, q ∈ ps → k ∉ connections (ports σ q)) →
            conns σ' k = conns σ k)
    ∧ ((∀ nm o, (nm, o) ∈ futures → is_return o = true)
       ↔ ∃ m, r = Return m)
    ∧ (∀ m, r = Return m →
         futures = prod_map id Return <$> m
         ∧ ∀ nm v, (nm, v) ∈ m →
             v = None ∨ ∃ pkt, v = Some pkt ∧ is_eos pkt = false)
    ∧ (∀ pre nm o post,
         futures = pre ++ (nm, o) :: post →
         (∀ nm' o', (nm', o') ∈ pre → is_return o' = true) →
         (∀ e, o = Raise e → r = Raise e) ∧ (o = Suspend → r = Suspend)).
Proof.
  unfold receive_packets.
  destruct (run_tasks σ (tasks σ reg) sched []) as [[futures σ1]|] eqn:Hrun;
    [|done].
  intros [= <- <-].
  assert (NoDup (issued σ reg)) as Hnd.
  { unfold issued, values. apply list.NoDup_filter, NoDup_elements. }
  destruct (run_tasks_keys _ _ _ _ _ _ Hrun) as [Hkeys Hget].
  specialize (Hkeys (NoDup_nil_2 : NoDup ([] : list string))).
  assert (∀ nm o, (nm, o) ∈ futures →
            ∃ p σa σb,
              p ∈ issued σ reg ∧ name (ports σ p) = nm
              ∧ receive_packet σa p (sched p) = Some (o, σb)
              ∧ ports σa p = ports σ p
              ∧ loggers σa = loggers σ
              ∧ ∀ k, (∀ q, q ∈ issued σ reg → q ≠ p →
                           k ∉ connections (ports σ q)) →
                     conns σa k = conns σ k) as Hf.
  { intros nm o Hin.
    assert (NoDup ([] ++ (tasks σ reg).*2)) as Hnd0
      by (simpl; by rewrite tasks_ports).
    destruct (run_tasks_each σ sched (tasks σ reg) [] σ σ1 [] futures
                Hnd0 eq_refl (λ _ _, eq_refl) (λ _ _, eq_refl) Hrun nm o Hin)
      as [H|(p & σa & σb & Hp & Hr & Hpa & Hla & Hka)].
    - by apply not_elem_of_nil in H.
    - apply tasks_spec in Hp as [Hp Hn]. exists p, σa, σb.
      split; [done|]. split; [done|]. split; [done|]. split; [done|].
      split; [done|]. intros k Hq. apply Hka. simpl.
      rewrite tasks_ports. exact Hq. }
  exists (issued σ reg), futures.
  split; [done|]. split; [apply issued_spec|]. split; [exact Hrun|].
  split; [done|]. split.
  { intros nm. rewrite Hget. split.
    - intros [[? H]|(p & H)]; [done|]. exists p. by apply tasks_spec.
    - intros (p & Hp & Hn). right. exists p. by apply tasks_spec. }
  split; [exact Hf|].
  destruct (run_tasks_frame _ _ _ _ _ _ Hrun) as [Hfp Hfk].
  rewrite tasks_ports in Hfp, Hfk.
  split.
  { intros p k Hp Hcl Hcon Hlog Hk Hothers.
    pose proof (proj1 (issued_spec σ reg p) Hp) as [_ Hop].
    apply (run_tasks_takes _ _ _ _ _ _
             (eq_ind_r NoDup Hnd (tasks_ports σ reg)) Hrun p k);
      [by rewrite tasks_ports|done..|].
    rewrite tasks_ports. exact Hothers. }
  split; [exact Hfp|]. split; [exact Hfk|].
  assert (∀ m, await_all futures [] = Return m →
               futures = prod_map id Return <$> m) as Hm.
  { intros m Hr.
    destruct (all_return_values futures (await_all_returns _ _ _ Hr))
      as [m0 Hm0].
    rewrite Hm0 in Hr. rewrite await_all_values in Hr.
    - injection Hr as <-. done.
    - simpl. by rewrite <- (values_keys m0), <- Hm0. }
  split; [|split].
  - split.
    + intros Hall. destruct (all_return_values futures Hall) as [m0 Hm0].
      exists m0. rewrite Hm0. rewrite await_all_values; [done|].
      simpl. by rewrite <- (values_keys m0), <- Hm0.
    + intros [m Hr]. by eapply await_all_returns.
  - intros m Hr. split; [by apply Hm|].
    intros nm v Hin.
    assert ((nm, Return v) ∈ futures) as Hin'.
    { rewrite (Hm m Hr). apply list_elem_of_fmap. by exists (nm, v). }
    destruct (Hf nm _ Hin') as (p & σa & σb & _ & _ & Hrp & _).
    destruct v as [pkt|]; [right|by left].
    exists pkt. split; [done|]. by eapply receive_packet_data.
  - intros pre nm o post -> Hpre. by apply await_all_first.
Qed.

Lemma receive_packets_outcome_witness :
  (∃ futures : list (string * outcome (option packet)),
     futures = [("IN"%string, Return (Some (InformationPacket 42%Z None)))]
     ∧ NoDup futures.*1)
  ∧ conns (complete fed [0]) 0 = snd (conn_receive (conns fed 0))
  ∧ (∃ futures : list (string * outcome (option packet)),
       NoDup futures.*1
       ∧ ¬ ∀ nm o, (nm, o) ∈ futures → is_return o = true).
Proof.
  split; [|split].
  - destruct (receive_packets_outcome fed (complete fed [0]) inputs (λ _, [0])
                (Return [("IN"%string, Some (InformationPacket 42%Z None))])
                eq_refl)
      as (ps & futures & _ & _ & _ & Hnd & _ & _ & _ & _ & _ & _ & Hm & _).
    exists futures. split; [|exact Hnd].
    exact (proj1 (Hm _ eq_refl)).
  - destruct (receive_packets_outcome fed (complete fed [0]) inputs (λ _, [0])
                (Return [("IN"%string, Some (InformationPacket 42%Z None))])
                eq_refl)
      as (ps & futures & _ & Hps & _ & _ & _ & _ & Htake & _).
    apply (Htake 1 0); [|reflexivity..| |].
    + apply Hps. split; [apply list_elem_of_here|reflexivity].
    + apply list_elem_of_here.
    + intros q Hq Hne. apply Hps in Hq as [Hq _].
      apply elem_of_cons in Hq as [->|Hq]; [done|].
      by apply not_elem_of_nil in Hq.
  - destruct (receive_packets_outcome one_feed
                (snd (InputPort_close (complete one_feed [0]) 1))
                inputs (λ _, [0]) (Raise StopAsyncIteration) eq_refl)
      as (ps & futures & _ & _ & _ & Hnd & _ & _ & _ & _ & _ & Hall & _).
    exists futures. split; [exact Hnd|].
    intros H. apply Hall in H as [m Hm]. discriminate Hm.
Defined.

(** C8 as stated fails: the register holds the open, connected port [1],
    whose queue holds an [EndOfStream]; [receive_packets] raises
    [StopAsyncIteration] and returns no mapping, and so does
    [__anext__]. *)
Lemma receive_packets_raises :
  1 ∈ issued one_feed inputs
  ∧ ∃ σ', receive_packets one_feed inputs (λ _, [0])
          = Some (Raise StopAsyncIteration, σ')
          ∧ anext one_feed inputs (λ _, [0])
            = Some (Raise StopAsyncIteration, σ').
Proof.
  split.
  - apply issued_spec. split; [|reflexivity].
    simpl. apply list_elem_of_here.
  - eexists. split; reflexivity.
Qed.

(** ** The race of a receive *)

Lemma wait_first_none_ready (σ σ1 : store) (ks : gset conn_id)
    (done : list conn_id) (r : outcome packet) :
  (∀ k, k ∈ ks → ready (conns σ k) = false) →
  wait_first σ ks done = Some (r, σ1) → r = Suspend ∧ σ1 = σ.
Proof.
  intros Hks. unfold wait_first. destruct done as [|w done].
  - destruct (existsb _ _); [done|]. by intros [= <- <-].
  - simpl. destruct (decide (w ∈ ks)) as [Hw|Hw].
    + rewrite (Hks w Hw), andb_false_r. simpl. by rewrite andb_false_r.
    + rewrite (bool_decide_eq_false_2 _ Hw). simpl. by rewrite andb_false_r.
Qed.

(** C1 (the code at the failing input): the input port [1] is open and
    bound to the connections [0] and [1], which hold the packets [10] and
    [20].  When both receive tasks are done as [asyncio.wait] returns,
    [receive_packet] returns the packet [10] alone, and both queues are
    empty afterwards: the packet [20] has been taken from its connection
    and is returned by no call, every later [receive_packet] stays
    suspended. *)
Theorem race_loses_packet :
  class (ports two_feeds 1) = InputPort
  ∧ open (ports two_feeds 1) = true
  ∧ elements (connections (ports two_feeds 1)) = [1; 0]
  ∧ queued two_feeds 0 = [InformationPacket 10%Z None]
  ∧ queued two_feeds 1 = [InformationPacket 20%Z None]
  ∧ ∃ σ',
      receive_packet two_feeds 1 [0; 1]
      = Some (Return (Some (InformationPacket 10%Z None)), σ')
      ∧ queued σ' 0 = []
      ∧ queued σ' 1 = []
      ∧ ∀ done r σ'', receive_packet σ' 1 done = Some (r, σ'') →
                       r = Suspend ∧ σ'' = σ'.
Proof.
  split; [reflexivity|]. split; [reflexivity|]. split; [reflexivity|].
  split; [reflexivity|]. split; [reflexivity|].
  exists (complete two_feeds [0; 1]).
  split; [reflexivity|]. split; [reflexivity|]. split; [reflexivity|].
  intros done r σ''. unfold receive_packet, InputPort_receive_packet.
  change (ports (complete two_feeds [0; 1])) with (ports two_feeds).
  change (class (ports two_feeds 1)) with InputPort.
  change (is_connected (ports two_feeds 1)) with true.
  change (open (ports two_feeds 1)) with true.
  change (log_call (complete two_feeds [0; 1]) (ports two_feeds 1))
    with (Return tt : outcome unit).
  cbv iota.
  destruct (wait_first _ _ done) as [[r1 σ1]|] eqn:Hw; [|done].
  apply wait_first_none_ready in Hw as [-> ->].
  - by intros [= <- <-].
  - intros k Hk. apply elem_of_elements in Hk.
    change (elements (connections (ports two_feeds 1))) with [1; 0] in Hk.
    apply elem_of_cons in Hk as [->|Hk]; [reflexivity|].
    apply elem_of_cons in Hk as [->|Hk]; [reflexivity|].
    by apply not_elem_of_nil in Hk.
Qed.

(** * Further properties *)

(** ** One connection: order, capacity, bookkeeping *)

Lemma full_room (q : Queue) (n : nat) : room q (S n) → full q = false.
Proof.
  unfold room, full. intros [H|H].
  - destruct (Z.leb_spec (maxsize q) 0); [done|lia].
  - destruct (Z.leb_spec (maxsize q) 0); [done|].
    apply Z.leb_gt. lia.
Qed.

Lemma send_each_items (σ : store) (l : list packet) (c : Connection)
    (q : Queue) :
  _queue c = Some q → room q (length l) →
  send_each σ c l
  = Return (with_queue c {| maxsize := maxsize q;
                            items := items q ++ l;
                            unfinished_tasks :=
                              unfinished_tasks q + length l |}).
Proof.
  revert c q. induction l as [|x l IH]; intros c q Hq Hroom; simpl.
  - rewrite app_nil_r, Nat.add_0_r. destruct c, q; simpl in *. by subst.
  - unfold Connection_send at 1. rewrite Hq.
    rewrite (full_room q (length l)) by done. simpl.
    rewrite (IH _ (put_nowait q x)); [| done |].
    + unfold with_queue, put_nowait. simpl.
      rewrite <- app_assoc. simpl. by rewrite Nat.add_succ_r.
    + unfold room, put_nowait in *. simpl in *. rewrite length_app. simpl.
      destruct Hroom as [?|?]; [by left|right; lia].
Qed.

Lemma receive_each_items (xs rest : list packet) (c : Connection)
    (q : Queue) :
  _queue c = Some q → items q = xs ++ rest →
  length xs ≤ unfinished_tasks q →
  receive_each c (length xs)
  = (Return xs,
     with_queue c {| maxsize := maxsize q; items := rest;
                     unfinished_tasks := unfinished_tasks q - length xs |}).
Proof.
  revert c q. induction xs as [|x xs IH]; intros c q Hq Hi Hu; simpl.
  - rewrite Nat.sub_0_r. simpl in Hi. destruct c, q; simpl in *. by subst.
  - unfold Connection_receive at 1. rewrite Hq, Hi. simpl.
    unfold task_done. simpl in Hu. simpl.
    destruct (unfinished_tasks q) as [|u] eqn:Hun; [lia|]. simpl.
    rewrite (IH _ {| maxsize := maxsize q; items := xs ++ rest;
                     unfinished_tasks := u |}); simpl; [done|done|done|lia].
Qed.

(** X1: packets leave a connection in the order in which they entered it.
    On a queue that holds [old] and has room for [new], sending [new]
    packet by packet completes, and as many receives as there are packets
    then return [old ++ new] in this order and leave the queue empty, so
    that a further receive suspends. *)
Theorem Connection_fifo
    (σ : store) (c : Connection) (q : Queue) (new : list packet) :
  _queue c = Some q →
  unfinished_tasks q = length (items q) →
  room q (length new) →
  ∃ c1 c2,
    send_each σ c new = Return c1
    ∧ receive_each c1 (length (items q ++ new)) = (Return (items q ++ new), c2)
    ∧ _queue c2 = Some {| maxsize := maxsize q; items := [];
                          unfinished_tasks := 0 |}
    ∧ fst (Connection_receive c2) = Suspend.
Proof.
  intros Hq Hbal Hroom. eexists _, _. split.
  { by apply send_each_items. }
  split.
  { apply receive_each_items with (rest := []); simpl.
    - reflexivity.
    - by rewrite app_nil_r.
    - simpl. rewrite length_app, Hbal. lia. }
  simpl. split.
  - do 2 f_equal. rewrite length_app, Hbal. lia.
  - done.
Qed.

Lemma Connection_fifo_witness :
  ∃ c1 c2,
    send_each wired (mkConnection (Some (new_Queue 2)) ∅ ∅)
      [InformationPacket 1%Z None; InformationPacket 2%Z None] = Return c1
    ∧ receive_each c1 2
      = (Return [InformationPacket 1%Z None; InformationPacket 2%Z None], c2).
Proof.
  destruct (Connection_fifo wired (mkConnection (Some (new_Queue 2)) ∅ ∅)
              (new_Queue 2)
              [InformationPacket 1%Z None; InformationPacket 2%Z None]
              eq_refl eq_refl) as (c1 & c2 & H1 & H2 & _).
  - right. simpl. lia.
  - exists c1, c2. split; [exact H1|exact H2].
Defined.

Lemma full_message_ok (σ : store) (c : Connection) :
  destination c ≠ ∅ →
  (∀ d, d ∈ destination c → is_Some (component (ports σ d))) →
  full_message σ c = Return tt.
Proof.
  intros Hne Hd. unfold full_message.
  destruct (elements (destination c)) as [|d ds] eqn:He.
  - apply elements_empty_inv in He. by apply leibniz_equiv in He.
  - assert (d ∈ destination c) as Hin.
    { apply elem_of_elements. rewrite He. apply list_elem_of_here. }
    unfold port_str. by destruct (Hd d Hin) as [? ->].
Qed.

Lemma log_full_ok (σ : store) (c : Connection) (ss : list port_id) :
  (∀ s, s ∈ ss → log_call σ (ports σ s) = Return tt) →
  (ss ≠ [] → full_message σ c = Return tt) →
  log_full σ c ss = Return tt.
Proof.
  intros Hs Hm. induction ss as [|s ss IH]; simpl; [done|].
  rewrite (Hs s) by apply list_elem_of_here. simpl.
  rewrite Hm by done. simpl. destruct ss as [|s' ss']; [done|].
  apply IH.
  - intros s0 H0. apply Hs. by apply list_elem_of_further.
  - intros _. by apply Hm.
Qed.

Lemma Connection_send_full (σ : store) (c : Connection) (q : Queue)
    (x : packet) :
  _queue c = Some q → full q = true →
  (∀ s, s ∈ source c → log_call σ (ports σ s) = Return tt) →
  destination c ≠ ∅ →
  (∀ d, d ∈ destination c → is_Some (component (ports σ d))) →
  Connection_send σ c x = Suspend.
Proof.
  intros Hq Hf Hs Hne Hd. unfold Connection_send. rewrite Hq, Hf.
  rewrite log_full_ok; [done| |].
  - intros s Hin. apply Hs. by apply elem_of_elements.
  - intros _. by apply full_message_ok.
Qed.

(** X2: a queue of capacity [C ≥ 1] takes [C] packets; the next send
    suspends, once the diagnostic has been logged: the source ports can
    log, and the connection has a destination, whose ports have
    components, to name in it.  One receive returns the oldest packet, and
    the send then completes. *)
Theorem Connection_backpressure
    (σ : store) (c : Connection) (C : Z) (l : list packet) (x : packet) :
  _queue c = Some (new_Queue C) →
  (1 <= C)%Z →
  Z.of_nat (length l) = C →
  (∀ s, s ∈ source c → log_call σ (ports σ s) = Return tt) →
  destination c ≠ ∅ →
  (∀ d, d ∈ destination c → is_Some (component (ports σ d))) →
  ∃ c1,
    send_each σ c l = Return c1
    ∧ Connection_send σ c1 x = Suspend
    ∧ ∃ y c2 c3,
        Connection_receive c1 = (Return y, c2)
        ∧ head l = Some y
        ∧ Connection_send σ c2 x = Return c3
        ∧ ∃ q3, _queue c3 = Some q3 ∧ items q3 = tail l ++ [x].
Proof.
  intros Hq HC Hlen Hsrc Hne Hdst.
  destruct l as [|y l]; [simpl in Hlen; lia|].
  eexists. split.
  { apply send_each_items; [done|]. right. simpl in *. lia. }
  split.
  { eapply Connection_send_full; [reflexivity| |done..].
    unfold full. simpl. destruct (Z.leb_spec C 0); [lia|].
    apply Z.leb_le. simpl in *. lia. }
  eexists y, _, _. split; [reflexivity|]. split; [done|].
  unfold Connection_send. simpl. unfold full. simpl.
  destruct (Z.leb_spec C 0); [lia|].
  destruct (Z.leb_spec C (Z.of_nat (length l))); [simpl in *; lia|].
  split; [reflexivity|]. eexists. split; reflexivity.
Qed.

Lemma Connection_backpressure_witness :
  ∃ c1,
    send_each wired (mkConnection (Some (new_Queue 1)) {[0]} {[1]})
      [EndOfStream None] = Return c1
    ∧ Connection_send wired c1 (InformationPacket 1%Z None) = Suspend
    ∧ ∃ y c2 c3,
        Connection_receive c1 = (Return y, c2)
        ∧ head [EndOfStream None] = Some y
        ∧ Connection_send wired c2 (InformationPacket 1%Z None) = Return c3
        ∧ ∃ q3, _queue c3 = Some q3
                ∧ items q3
                  = tail [EndOfStream None] ++ [InformationPacket 1%Z None].
Proof.
  refine (Connection_backpressure wired
            (mkConnection (Some (new_Queue 1)) {[0]} {[1]}) 1
            [EndOfStream None] (InformationPacket 1%Z None)
            eq_refl _ _ _ _ _).
  - lia.
  - reflexivity.
  - intros s Hs. simpl in Hs. apply elem_of_singleton in Hs as ->.
    reflexivity.
  - simpl. intros H. assert (1 ∈ (∅ : gset nat)) as H1; [|done].
    rewrite <- H. by apply elem_of_singleton.
  - intros d Hd. simpl in Hd. apply elem_of_singleton in Hd as ->.
    by eexists.
Defined.

(** X3: [send] and [receive] keep the queue balanced (as many unfinished
    tasks as items), a new connection is balanced, and on a balanced
    connection [receive] never fails in [task_done] and the [join] of
    [InputPort.close] is ready exactly when the queue is empty. *)
Theorem balanced_kept (σ : store) (c : Connection) :
  balanced c →
  (∀ x c', Connection_send σ c x = Return c' → balanced c')
  ∧ (∀ r c', Connection_receive c = (r, c') →
             balanced c' ∧ r ≠ Raise ValueError)
  ∧ (joined (AConnection c) = true
     ↔ ∃ q, _queue c = Some q ∧ items q = [])
  ∧ (∀ src dst sz c', Connection_bind new_Connection src dst sz = Return c' →
                      balanced c').
Proof.
  intros Hb. split; [|split; [|split]].
  - intros x c'. unfold Connection_send.
    destruct (_queue c) as [q|] eqn:Hq; [|done].
    destruct (full q); [by destruct (log_full _ _ _)|].
    intros [= <-] q' [= <-]. simpl. rewrite length_app, (Hb q Hq). simpl. lia.
  - intros r c'. unfold Connection_receive.
    destruct (_queue c) as [q|] eqn:Hq.
    + pose proof (Hb q Hq) as Hu.
      destruct (items q) as [|x rest] eqn:Hi.
      * intros [= <- <-]. split; [|done]. intros q' Hq'.
        rewrite Hq in Hq'. injection Hq' as <-. by rewrite Hi.
      * unfold task_done. simpl. rewrite Hu. simpl.
        intros [= <- <-]. split; [|done]. by intros q' [= <-].
    + intros [= <- <-]. split; [|done]. intros q'. by rewrite Hq.
  - simpl. destruct (_queue c) as [q|] eqn:Hq.
    + pose proof (Hb q Hq) as Hu. unfold join_ready. rewrite Hu. split.
      * intros H. exists q. split; [done|]. by destruct (items q).
      * intros (q' & [= <-] & ->). done.
    + split; [done|]. by intros (? & ? & _).
  - intros src dst sz c'. unfold Connection_bind. simpl.
    intros [= <-] q [= <-]. done.
Qed.

Lemma balanced_kept_witness :
  balanced (with_queue (mkConnection (Some (new_Queue 2)) ∅ ∅)
              (put_nowait (new_Queue 2) (EndOfStream None))).
Proof.
  refine (proj1 (balanced_kept wired
                   (mkConnection (Some (new_Queue 2)) ∅ ∅) _)
            (EndOfStream None) _ eq_refl).
  intros q Hq. injection Hq as <-. reflexivity.
Defined.

(** ** What sending and receiving leave alone *)

(** X4: [receive_packet] on port [p] changes nothing but the open flag of
    [p], which it can only clear, and the connections bound to [p] whose
    receive task was done: a closed port stays closed, no other port and
    no foreign connection is touched, nothing is allocated. *)
Theorem receive_packet_frame
    (σ σ' : store) (p : port_id) (done : list conn_id)
    (r : outcome (option packet)) :
  receive_packet σ p done = Some (r, σ') →
  next_conn σ' = next_conn σ
  ∧ (ports σ' p = ports σ p ∨ ports σ' p = with_open (ports σ p) false)
  ∧ (∀ q, q ≠ p → ports σ' q = ports σ q)
  ∧ (∀ k, k ∉ connections (ports σ p) → conns σ' k = conns σ k)
  ∧ (∀ k, k ∉ done → conns σ' k = conns σ k).
Proof.
  intros Hr.
  destruct (receive_packet_effect _ _ _ _ _ Hr) as (Hn & _ & Hp & Hq & Hk & Hd).
  done.
Qed.

Lemma receive_packet_frame_witness :
  ports (complete fed [0]) 0 = ports fed 0.
Proof.
  refine (proj1 (proj2 (proj2 (receive_packet_frame fed (complete fed [0])
                                 1 [0] _ _))) 0 _).
  - reflexivity.
  - discriminate.
Defined.

(** X5: [send_packet] never changes a port, never allocates, and never
    touches a connection that is not bound to the sending port; a bound
    connection is either as before or has the packet added behind what its
    queue already held. *)
Theorem send_packet_frame
    (σ σ' : store) (p : port_id) (pkt : packet) (r : outcome unit) :
  send_packet σ p pkt = (r, σ') →
  ports σ' = ports σ
  ∧ next_conn σ' = next_conn σ
  ∧ (∀ k, k ∉ connections (ports σ p) → conns σ' k = conns σ k)
  ∧ (∀ k, conns σ' k = conns σ k
          ∨ ∃ c q, conns σ k = AConnection c ∧ _queue c = Some q
                   ∧ conns σ' k
                     = AConnection (with_queue c (put_nowait q pkt))).
Proof.
  unfold send_packet, OutputPort_send_packet, InputPort_send_packet.
  assert (∀ k, conns (broadcast σ (connections (ports σ p)) pkt) k = conns σ k
               ∨ ∃ c q, conns σ k = AConnection c ∧ _queue c = Some q
                        ∧ conns (broadcast σ (connections (ports σ p)) pkt) k
                          = AConnection (with_queue c (put_nowait q pkt)))
    as Hb.
  { intros k. simpl. destruct (decide _); [|by left].
    destruct (conns σ k) as [c|c] eqn:Hk; simpl; [|by left].
    unfold Connection_send. destruct (_queue c) as [q|] eqn:Hq; [|by left].
    destruct (full q); [destruct (log_full _ _ _); by left|].
    right. by exists c, q. }
  destruct (class (ports σ p)).
  - destruct (is_connected (ports σ p)).
    + destruct (may_send (ports σ p) pkt).
      * destruct (existsb _ _);
          [intros [= <- <-]; split; [done|]; split; [done|];
           split; [done|by left]|].
        destruct (existsb _ _); intros [= <- <-];
          (split; [done|]); (split; [done|]);
          (split; [intros k Hk; by apply broadcast_unbound|done]).
      * intros [= <- <-]. split; [done|]. split; [done|].
        split; [done|by left].
    + destruct (optional (ports σ p)); intros [= <- <-];
        (split; [done|]); (split; [done|]); (split; [done|by left]).
  - intros [= <- <-]. split; [done|]. split; [done|]. split; [done|by left].
Qed.

Lemma send_packet_frame_witness :
  ports fed = ports wired ∧ next_conn fed = next_conn wired.
Proof.
  destruct (send_packet_frame wired fed 0 (InformationPacket 42%Z None)
              (Return tt) eq_refl) as (H1 & H2 & _).
  split; [exact H1|exact H2].
Defined.

(** ** Ports without connection *)

(** X6: on an output port that has no connection and whose log calls
    succeed (its component has a logger), [send] and [close] deliver
    nothing.  If the port is optional, [send] returns and changes nothing,
    and [close] returns with the port closed.  If it is mandatory, both
    raise [PortDisconnectedError] and change nothing, so the port cannot
    be closed. *)
Theorem unconnected_output_port (σ : store) (p : port_id) :
  class (ports σ p) = OutputPort →
  is_connected (ports σ p) = false →
  log_call σ (ports σ p) = Return tt →
  (optional (ports σ p) = true →
     (∀ v, send σ p v = (Return tt, σ))
     ∧ ∃ σ', OutputPort_close σ p = (Return tt, σ')
             ∧ open (ports σ' p) = false
             ∧ conns σ' = conns σ)
  ∧ (optional (ports σ p) = false →
     (∀ v, send σ p v = (Raise PortDisconnectedError, σ))
     ∧ OutputPort_close σ p = (Raise PortDisconnectedError, σ)).
Proof.
  intros Hcl Hcon Hlog.
  split; intros Hopt.
  - split.
    + intros v. unfold send, send_packet, OutputPort_send_packet.
      by rewrite Hcl, Hcon, Hopt, Hlog.
    + unfold OutputPort_close, OutputPort_send_packet.
      rewrite Hcon, Hopt, Hlog.
      eexists. split; [reflexivity|]. simpl. by rewrite fn_lookup_insert.
  - split.
    + intros v. unfold send, send_packet, OutputPort_send_packet.
      by rewrite Hcl, Hcon, Hopt, Hlog.
    + unfold OutputPort_close, OutputPort_send_packet.
      by rewrite Hcon, Hopt, Hlog.
Qed.

Lemma unconnected_output_port_witness :
  send three_ports 0 7%Z = (Raise PortDisconnectedError, three_ports)
  ∧ OutputPort_close three_ports 0
    = (Raise PortDisconnectedError, three_ports)
  ∧ send (set_port three_ports 0 (new_port OutputPort "OUT" (Some 10) true))
      0 7%Z
    = (Return tt,
       set_port three_ports 0 (new_port OutputPort "OUT" (Some 10) true))
  ∧ ∃ σ',
      OutputPort_close
        (set_port three_ports 0 (new_port OutputPort "OUT" (Some 10) true)) 0
      = (Return tt, σ')
      ∧ open (ports σ' 0) = false.
Proof.
  split; [|split; [|split]].
  - refine (proj1 (proj2 (unconnected_output_port three_ports 0 _ _ _) _)
              7%Z); reflexivity.
  - refine (proj2 (proj2 (unconnected_output_port three_ports 0 _ _ _) _));
      reflexivity.
  - refine (proj1 (proj1 (unconnected_output_port
                            (set_port three_ports 0
                               (new_port OutputPort "OUT" (Some 10) true))
                            0 _ _ _) _) 7%Z); reflexivity.
  - destruct (proj2 (proj1 (unconnected_output_port
                              (set_port three_ports 0
                                 (new_port OutputPort "OUT" (Some 10) true))
                              0 eq_refl eq_refl eq_refl) eq_refl))
      as (σ' & H1 & H2 & _).
    exists σ'. split; [exact H1|exact H2].
Defined.

(** ** Receiving a value *)

(** X7: [receive] returns the payload of the packet that [receive_packet]
    returns, and that packet always has one.  On an optional input port
    without connection, where [receive_packet] returns [None], [receive]
    raises [AttributeError]. *)
Theorem receive_value (σ : store) (p : port_id) (done : list conn_id) :
  (∀ pkt σ', receive_packet σ p done = Some (Return (Some pkt), σ') →
     ∃ v, value pkt = Some v
          ∧ receive σ p done = Some (Return (Some v), σ'))
  ∧ (class (ports σ p) = InputPort →
     is_connected (ports σ p) = false →
     optional (ports σ p) = true →
     receive_packet σ p done = Some (Return None, σ)
     ∧ receive σ p done = Some (Raise AttributeError, σ)).
Proof.
  split.
  - intros pkt σ' Hr. pose proof (receive_packet_data _ _ _ _ _ Hr) as He.
    unfold receive. rewrite Hr. destruct pkt as [v o|o]; [|done].
    by exists v.
  - intros Hcl Hcon Hopt.
    assert (receive_packet σ p done = Some (Return None, σ)) as Hr.
    { unfold receive_packet, InputPort_receive_packet.
      by rewrite Hcl, Hcon, Hopt. }
    split; [done|]. unfold receive. by rewrite Hr.
Qed.

Lemma receive_value_witness :
  ∃ v, value (InformationPacket 42%Z None) = Some v
       ∧ receive fed 1 [0] = Some (Return (Some v), complete fed [0]).
Proof.
  refine (proj1 (receive_value fed 1 [0]) _ _ _). reflexivity.
Defined.

(** ** Initial packets *)

Lemma is_connected_elem (P : port) (k : conn_id) :
  k ∈ connections P → is_connected P = true.
Proof.
  intros Hk. unfold is_connected. apply Nat.ltb_lt.
  destruct (decide (size (connections P) = 0)) as [H0|]; [|lia].
  apply size_empty_iff in H0. set_solver.
Qed.

Lemma set_initial_packet_port (σ : store) (p : port_id) (v : payload) :
  ports (set_initial_packet σ p v) p
  = with_iip (with_connections (ports σ p)
                ({[next_conn σ]} ∪ connections (ports σ p))) true.
Proof.
  unfold set_initial_packet, add_connection, set_port. simpl.
  by rewrite !fn_lookup_insert.
Qed.

(** X8: after [set_initial_packet(v)] on an open input port of a
    component [c] that has a logger, a [receive_packet] whose race is won
    by the initial packet returns the packet of value [v] owned by [c] and
    closes the port;
    every later [receive_packet] raises [PortClosedError].  The
    [EndOfStream] that the connection would give next is never
    received. *)
Theorem initial_packet_once
    (σ : store) (p : port_id) (v : payload) (c : comp_id) :
  class (ports σ p) = InputPort →
  component (ports σ p) = Some c →
  c ∈ loggers σ →
  open (ports σ p) = true →
  let σ1 := set_initial_packet σ p v in
  ∃ σ2,
    receive_packet σ1 p [next_conn σ]
    = Some (Return (Some (InformationPacket v (Some c))), σ2)
    ∧ open (ports σ2 p) = false
    ∧ (∀ done, receive_packet σ2 p done = Some (Raise PortClosedError, σ2))
    ∧ ∃ ci, conns σ2 (next_conn σ) = AnIIPConnection ci
            ∧ fst (IIPConnection_receive ci) = EndOfStream None.
Proof.
  intros Hcl Hc Hlg Hop σ1. set (k := next_conn σ).
  pose proof (set_initial_packet_port σ p v) as Hp1. fold σ1 k in Hp1.
  destruct (set_initial_packet_conn σ p v) as (Hk1 & Hin1 & _).
  fold σ1 k in Hk1, Hin1. rewrite Hc in Hk1.
  assert (loggers σ1 = loggers σ) as Hl1 by reflexivity.
  change (next_conn σ) with k. clearbody σ1 k.
  assert (wait_first σ1 (connections (ports σ1 p)) [k]
          = Some (Return (InformationPacket v (Some c)), complete σ1 [k]))
    as Hw.
  { unfold wait_first.
    rewrite (bool_decide_eq_true_2 (NoDup [k]))
      by (apply NoDup_singleton).
    simpl. rewrite (bool_decide_eq_true_2 (k ∈ _)) by done.
    unfold ready. rewrite Hk1. simpl. done. }
  set (σ2 := set_port (complete σ1 [k]) p (with_open (ports σ1 p) false)).
  exists σ2.
  assert (ports σ2 p = with_open (ports σ1 p) false) as Hp2
    by (subst σ2; simpl; by rewrite fn_lookup_insert).
  assert (class (ports σ1 p) = InputPort) as Hcl1 by (by rewrite Hp1).
  assert (open (ports σ1 p) = true) as Hop1 by (by rewrite Hp1).
  assert (_iip (ports σ1 p) = true) as Hiip1 by (by rewrite Hp1).
  assert (log_call σ1 (ports σ1 p) = Return tt) as Hlog.
  { rewrite Hp1. unfold log_call. simpl. rewrite Hc, Hl1.
    by rewrite decide_True. }
  split; [|split; [|split]].
  - unfold receive_packet, InputPort_receive_packet.
    rewrite Hcl1, (is_connected_elem _ k Hin1), Hop1, Hlog, Hw.
    unfold deliver.
    change (ports (complete σ1 [k])) with (ports σ1).
    change (log_call (complete σ1 [k])) with (log_call σ1).
    rewrite Hlog, Hiip1. unfold InputPort_close.
    change (ports (complete σ1 [k])) with (ports σ1).
    change (log_call (complete σ1 [k])) with (log_call σ1).
    rewrite Hiip1, Hlog. reflexivity.
  - by rewrite Hp2.
  - intros done. unfold receive_packet, InputPort_receive_packet.
    rewrite Hp2.
    change (class (with_open (ports σ1 p) false)) with (class (ports σ1 p)).
    change (is_connected (with_open (ports σ1 p) false))
      with (is_connected (ports σ1 p)).
    rewrite Hcl1, (is_connected_elem _ k Hin1). reflexivity.
  - eexists. split.
    + subst σ2. simpl. rewrite decide_True by apply list_elem_of_here.
      rewrite Hk1. reflexivity.
    + reflexivity.
Qed.

Lemma initial_packet_once_witness :
  ∃ σ2,
    receive_packet (set_initial_packet three_ports 1 5%Z) 1
      [next_conn three_ports]
    = Some (Return (Some (InformationPacket 5%Z (Some 11))), σ2)
    ∧ open (ports σ2 1) = false.
Proof.
  destruct (initial_packet_once three_ports 1 5%Z 11 eq_refl eq_refl)
    as (σ2 & H1 & H2 & _).
  - vm_compute. reflexivity.
  - reflexivity.
  - exists σ2. split; [exact H1|exact H2].
Defined.

(** ** Registers: removing and registering again *)

Lemma dict_pop_missing {V} (d : list (string * V)) (k : string) :
  dict_get d k = None → dict_pop d k = KeyError.
Proof.
  induction d as [|[k0 x] d IH]; simpl; [done|].
  destruct (decide (k0 = k)); [done|]. intros H. by rewrite IH.
Qed.

Lemma dict_pop_found {V} (d : list (string * V)) (k : string) :
  NoDup d.*1 → is_Some (dict_get d k) →
  ∃ d', dict_pop d k = Found d'
        ∧ dict_get d' k = None
        ∧ ∀ k', k' ≠ k → dict_get d' k' = dict_get d k'.
Proof.
  induction d as [|[k0 x] d IH]; simpl.
  - by intros _ [? ?].
  - change (((k0, x) :: d).*1) with (k0 :: d.*1).
    rewrite list.NoDup_cons. intros [Hk0 Hd] Hs.
    destruct (decide (k0 = k)) as [->|Hne].
    + exists d. split; [done|]. split; [by apply dict_get_None|].
      intros k' Hk'. by rewrite decide_False by congruence.
    + destruct (IH Hd Hs) as (d' & -> & Hg & Ho).
      exists ((k0, x) :: d'). split; [done|]. simpl.
      rewrite decide_False by done. split; [done|].
      intros k' Hk'. destruct (decide (k0 = k')); [done|]. by apply Ho.
Qed.

(** X9: a port without component is registered in a register of
    component [c] under [nm] and can be looked up there; [remove(nm)]
    takes the name out again, so that the lookup raises
    [PortNotExistingError], but the port keeps its component: every later
    attempt to register it, in any register under any name, raises
    [PortAlreadyExistingError].  Removing a name that is not in the
    register raises [KeyError]. *)
Theorem removed_port_stays_owned
    (σ : store) (reg : PortRegister) (port : port_id) (nm : string)
    (c : comp_id) :
  reg_component reg = Some c →
  component (ports σ port) = None →
  NoDup (reg_ports reg).*1 →
  (∃ σ' reg' reg'',
     add_as σ reg port nm = (Return tt, σ', reg')
     ∧ getitem reg' nm = Return port
     ∧ remove reg' nm = Found reg''
     ∧ getitem reg'' nm = Raise PortNotExistingError
     ∧ (∀ nm', nm' ≠ nm → getitem reg'' nm' = getitem reg nm')
     ∧ ∀ reg2 nm2,
         add_as σ' reg2 port nm2 = (Raise PortAlreadyExistingError, σ', reg2))
  ∧ (∀ nm', dict_get (reg_ports reg) nm' = None → remove reg nm' = KeyError).
Proof.
  intros Hc Hp Hnd. split.
  - destruct (dict_pop_found (dict_update (reg_ports reg) nm port) nm)
      as (d' & Hpop & Hnone & Hother).
    { by apply dict_update_keys. }
    { rewrite dict_get_update, decide_True by done. by eexists. }
    unfold add_as. rewrite Hp. eexists _, _, _. split; [reflexivity|].
    split; [|split; [|split; [|split]]].
    + unfold getitem. simpl. by rewrite dict_get_update, decide_True.
    + unfold remove. simpl. rewrite Hpop. reflexivity.
    + unfold getitem. simpl. by rewrite Hnone.
    + intros nm' Hne. unfold getitem. simpl. rewrite Hother by done.
      by rewrite dict_get_update, decide_False.
    + intros reg2 nm2. simpl. rewrite fn_lookup_insert. simpl.
      by rewrite Hc.
  - intros nm' Hn. unfold remove. by rewrite dict_pop_missing.
Qed.

Lemma removed_port_stays_owned_witness :
  remove inputs "OUT" = KeyError.
Proof.
  refine (proj2 (removed_port_stays_owned loose_ports inputs 0 "X" 11 _ _ _)
            "OUT"%string _).
  - reflexivity.
  - reflexivity.
  - simpl. apply NoDup_singleton.
  - reflexivity.
Defined.

(** ** Registers whose ports are all closed *)

(** X10: when every port of the register is closed, [receive_packets]
    starts no receive: it returns the empty mapping and leaves the store
    as it is, rather than signalling the end of the stream.  Otherwise
    some registered port is open and gets a future. *)
Theorem receive_packets_all_closed
    (σ : store) (reg : PortRegister) (sched : port_id → list conn_id) :
  (all_closed σ reg = true →
     issued σ reg = []
     ∧ receive_packets σ reg sched = Some (Return [], σ)
     ∧ anext σ reg sched = Some (Return [], σ))
  ∧ (all_closed σ reg = false →
     ∃ p, p ∈ issued σ reg ∧ p ∈ (reg_ports reg).*2
          ∧ open (ports σ p) = true).
Proof.
  unfold all_closed. split.
  - intros Hall. rewrite forallb_forall in Hall.
    assert (issued σ reg = []) as Hi.
    { apply elem_of_nil_inv. intros p Hp.
      unfold issued in Hp. apply list_elem_of_filter in Hp as [Hop Hv].
      specialize (Hall p (proj1 (list_elem_of_In _ _) Hv)).
      rewrite Hop in Hall. done. }
    split; [done|]. unfold anext, receive_packets, tasks. by rewrite Hi.
  - intros Hall.
    destruct (forallb_false_elem _ _ Hall) as (p & Hin & Hop).
    apply negb_false_iff in Hop. exists p.
    assert (p ∈ issued σ reg) as Hi.
    { unfold issued. by apply list_elem_of_filter. }
    split; [done|]. by apply issued_spec in Hi as [? ?].
Qed.

Lemma receive_packets_all_closed_witness :
  (issued ended inputs = []
   ∧ receive_packets ended inputs (λ _, []) = Some (Return [], ended)
   ∧ anext ended inputs (λ _, []) = Some (Return [], ended))
  ∧ ∃ p, p ∈ issued fed inputs ∧ p ∈ (reg_ports inputs).*2
         ∧ open (ports fed p) = true.
Proof.
  split.
  - refine (proj1 (receive_packets_all_closed ended inputs (λ _, [])) _).
    reflexivity.
  - refine (proj2 (receive_packets_all_closed fed inputs (λ _, [])) _).
    reflexivity.
Defined.

(** ** Component.receive and closed ports *)

Lemma receive_store (σ σ' : store) (p : port_id) (done : list conn_id)
    (r : outcome (option payload)) :
  receive σ p done = Some (r, σ') →
  ∃ r', receive_packet σ p done = Some (r', σ').
Proof.
  unfold receive.
  destruct (receive_packet σ p done) as [[[[pkt|]| |] σ1]|]; [..|done];
    intros [= _ <-]; by eexists.
Qed.

Lemma receive_closed (σ : store) (p : port_id) (done : list conn_id) :
  closed_input σ p → receive σ p done = Some (Raise PortClosedError, σ).
Proof.
  intros (Hcl & Hcon & Hop).
  unfold receive, receive_packet, InputPort_receive_packet.
  by rewrite Hcl, Hcon, Hop.
Qed.

Lemma receive_keeps_closed (σ σ' : store) (p q : port_id)
    (done : list conn_id) (r : outcome (option payload)) :
  receive σ q done = Some (r, σ') → closed_input σ p → closed_input σ' p.
Proof.
  intros Hr (Hcl & Hcon & Hop). apply receive_store in Hr as [r' Hr].
  apply receive_packet_effect in Hr as (_ & _ & Hq & Ho & _).
  unfold closed_input. destruct (decide (p = q)) as [->|Hne].
  - destruct Hq as [->| ->]; done.
  - by rewrite Ho.
Qed.

Lemma schedule_receive_other (σ σ' : store) (its : list (string * port_id))
    (sched : port_id → list conn_id)
    (futs futs' : list (string * outcome (option payload))) (nm : string) :
  schedule_receive σ its sched futs = Some (futs', σ') →
  nm ∉ its.*1 → dict_get futs' nm = dict_get futs nm.
Proof.
  revert σ futs. induction its as [|[nm0 p0] its IH]; intros σ futs; simpl.
  - by intros [= <- <-].
  - destruct (receive σ p0 (sched p0)) as [[r σ1]|]; [|done].
    intros Hrun Hnm.
    change (((nm0, p0) :: its).*1) with (nm0 :: its.*1) in Hnm.
    apply not_elem_of_cons in Hnm as [Hne Hnm].
    rewrite (IH _ _ Hrun Hnm), dict_get_update.
    by rewrite decide_False by congruence.
Qed.

Lemma schedule_receive_closed (σ σ' : store) (its : list (string * port_id))
    (sched : port_id → list conn_id)
    (futs futs' : list (string * outcome (option payload)))
    (nm : string) (p : port_id) :
  schedule_receive σ its sched futs = Some (futs', σ') →
  NoDup its.*1 → (nm, p) ∈ its → closed_input σ p →
  dict_get futs' nm = Some (Raise PortClosedError).
Proof.
  revert σ futs. induction its as [|[nm0 p0] its IH]; intros σ futs; simpl.
  - intros _ _ H. by apply not_elem_of_nil in H.
  - destruct (receive σ p0 (sched p0)) as [[r σ1]|] eqn:Hr; [|done].
    intros Hrun Hnd Hin Hcl.
    change (((nm0, p0) :: its).*1) with (nm0 :: its.*1) in Hnd.
    apply list.NoDup_cons in Hnd as [Hnm0 Hnd].
    apply elem_of_cons in Hin as [[= -> ->]|Hin].
    + rewrite (schedule_receive_other _ _ _ _ _ _ _ Hrun Hnm0).
      rewrite dict_get_update, decide_True by done.
      rewrite receive_closed in Hr by done. by injection Hr as <- _.
    + eapply IH; [done..|]. by eapply receive_keeps_closed.
Qed.

Lemma await_each_raises {A} (futs : list (string * outcome A))
    (acc : list (string * A)) (nm : string) (o : outcome A) :
  (nm, o) ∈ futs → is_return o = false →
  is_return (await_each futs acc) = false.
Proof.
  revert acc. induction futs as [|[k v] futs IH]; intros acc Hin Ho; simpl.
  - by apply not_elem_of_nil in Hin.
  - apply elem_of_cons in Hin as [[= <- <-]|Hin].
    + by destruct o.
    + destruct v; simpl; [by eapply IH|done..].
Qed.

(** X11: [Component.receive] starts a [receive] on every port of the input
    register, also on closed ones.  If the register holds a connected
    input port that is closed, the call never returns a mapping: the
    future of that port ends in [PortClosedError].  [receive_packets] on
    the same register skips the port. *)
Theorem Component_receive_closed_port
    (σ σ' : store) (reg : PortRegister) (sched : port_id → list conn_id)
    (nm : string) (p : port_id)
    (r : outcome (list (string * option payload))) :
  NoDup (reg_ports reg).*1 →
  (nm, p) ∈ reg_ports reg →
  closed_input σ p →
  Component_receive σ reg sched = Some (r, σ') →
  (∀ m, r ≠ Return m)
  ∧ (∃ futures, schedule_receive σ (reg_ports reg) sched [] = Some (futures, σ')
                ∧ dict_get futures nm = Some (Raise PortClosedError))
  ∧ p ∉ issued σ reg.
Proof.
  intros Hnd Hin Hcl. unfold Component_receive.
  destruct (schedule_receive σ (reg_ports reg) sched [])
    as [[futures σ1]|] eqn:Hrun; [|done].
  intros [= <- <-].
  pose proof (schedule_receive_closed _ _ _ _ _ _ _ _ Hrun Hnd Hin Hcl) as Hf.
  split; [|split].
  - intros m Hm.
    pose proof (await_each_raises futures [] nm _
                  (dict_get_elem_of _ _ _ Hf) eq_refl) as Hr.
    by rewrite Hm in Hr.
  - by exists futures.
  - intros Hi. apply issued_spec in Hi as [_ Hop].
    destruct Hcl as (_ & _ & Hc). congruence.
Qed.

Lemma Component_receive_closed_port_witness :
  Component_receive ended inputs (λ _, [])
  = Some (Raise PortClosedError, ended)
  ∧ ∀ m : list (string * option payload),
      Raise PortClosedError ≠ Return m.
Proof.
  split; [reflexivity|].
  refine (proj1 (Component_receive_closed_port ended ended inputs (λ _, [])
                   "IN" 1 (Raise PortClosedError) _ _ _ _)).
  - simpl. apply NoDup_singleton.
  - simpl. apply list_elem_of_here.
  - repeat split; reflexivity.
  - reflexivity.
Defined.

(** ** Connecting and disconnecting *)

Lemma elem_of_add (k : conn_id) (X : gset conn_id) : k ∈ {[k]} ∪ X.
Proof. apply elem_of_union. left. by apply elem_of_singleton. Qed.

Lemma not_elem_of_remove (k : conn_id) (X : gset conn_id) : k ∉ X ∖ {[k]}.
Proof.
  rewrite elem_of_difference, elem_of_singleton. by intros [_ ?].
Qed.

Lemma add_remove (k : conn_id) (X : gset conn_id) :
  k ∉ X → ({[k]} ∪ X) ∖ {[k]} = X.
Proof.
  intros Hk. apply set_eq. intros x.
  rewrite elem_of_difference, elem_of_union, elem_of_singleton. split.
  - intros [[?|?] ?]; done.
  - intros Hx. split; [by right|]. intros ->. done.
Qed.

Lemma add_twice (k : conn_id) (X : gset conn_id) :
  {[k]} ∪ ({[k]} ∪ X) = {[k]} ∪ X.
Proof. by rewrite (assoc_L (∪)), (idemp_L (∪)). Qed.

Lemma Connection_bind_new (a b : port_id) (sz : Z) :
  Connection_bind new_Connection a b sz
  = Return {| _queue := Some (new_Queue sz);
              source := {[a]} ∪ ∅;
              destination := {[b]} ∪ ∅ |}.
Proof. reflexivity. Qed.

Lemma OutputPort_connect_store (σ : store) (a b : port_id) (sz : Z) :
  let k := next_conn σ in
  let σ1 := snd (OutputPort_connect σ a b sz) in
  fst (OutputPort_connect σ a b sz) = Return tt
  ∧ conns σ1 k = AConnection {| _queue := Some (new_Queue sz);
                                source := {[a]} ∪ ∅;
                                destination := {[b]} ∪ ∅ |}
  ∧ (∀ j, j ≠ k → conns σ1 j = conns σ j)
  ∧ connections (ports σ1 b) = {[k]} ∪ connections (ports σ b)
  ∧ (a ≠ b → connections (ports σ1 a) = {[k]} ∪ connections (ports σ a))
  ∧ (∀ q, ports σ1 q = with_connections (ports σ q) (connections (ports σ1 q)))
  ∧ next_conn σ1 = S k.
Proof.
  unfold OutputPort_connect, alloc_Connection, Connection_connect. simpl.
  rewrite fn_lookup_insert, Connection_bind_new.
  unfold add_connection, set_port, set_conn. simpl. split; [done|].
  split; [by rewrite fn_lookup_insert|].
  split; [intros j Hj; by rewrite !fn_lookup_insert_ne|].
  split.
  { destruct (decide (a = b)) as [->|Hne].
    - rewrite !fn_lookup_insert. simpl. apply add_twice.
    - rewrite fn_lookup_insert_ne, fn_lookup_insert by done. done. }
  split.
  { intros Hne. rewrite fn_lookup_insert. simpl.
    by rewrite fn_lookup_insert_ne. }
  split; [|done]. intros q.
  destruct (decide (a = q)) as [->|Hqa].
  - rewrite fn_lookup_insert. simpl.
    destruct (decide (b = q)) as [->|Hqb].
    + rewrite fn_lookup_insert. by destruct (ports σ q).
    + rewrite fn_lookup_insert_ne by done. by destruct (ports σ q).
  - rewrite fn_lookup_insert_ne by done.
    destruct (decide (b = q)) as [->|Hqb].
    + rewrite fn_lookup_insert. by destruct (ports σ q).
    + rewrite fn_lookup_insert_ne by done. by destruct (ports σ q).
Qed.

Lemma elements_single (x : port_id) : elements ({[x]} ∪ ∅ : gset port_id) = [x].
Proof. rewrite (right_id_L ∅ (∪)). apply elements_singleton. Qed.

(** X12: [disconnect] undoes the registration that [connect] made: after
    [a.connect(b)] between two different ports, [disconnect] on the new
    connection returns and both ports have the connection sets they had
    before, while the connection object keeps its queue, source and
    destination.  A second [disconnect] raises [KeyError]. *)
Theorem connect_disconnect (σ : store) (a b : port_id) (sz : Z) :
  a ≠ b →
  next_conn σ ∉ connections (ports σ a) →
  next_conn σ ∉ connections (ports σ b) →
  let k := next_conn σ in
  let σ1 := snd (OutputPort_connect σ a b sz) in
  ∃ c σ2,
    conns σ1 k = AConnection c
    ∧ Connection_disconnect σ1 k c = (Found tt, σ2)
    ∧ connections (ports σ2 a) = connections (ports σ a)
    ∧ connections (ports σ2 b) = connections (ports σ b)
    ∧ conns σ2 = conns σ1
    ∧ fst (Connection_disconnect σ2 k c) = KeyError.
Proof.
  intros Hne Ha Hb k σ1.
  destruct (OutputPort_connect_store σ a b sz)
    as (_ & Hk & _ & Hcb & Hca & _ & _).
  fold k σ1 in Hk, Hcb, Hca. specialize (Hca Hne).
  clearbody σ1. eexists _, _. split; [exact Hk|].
  unfold Connection_disconnect. simpl. rewrite !elements_single. simpl.
  unfold remove_connection at 1. rewrite Hcb.
  rewrite decide_True by apply elem_of_add.
  unfold remove_connection at 1. simpl.
  rewrite fn_lookup_insert_ne by done. rewrite Hca.
  rewrite decide_True by apply elem_of_add.
  split; [reflexivity|]. simpl. rewrite fn_lookup_insert.
  rewrite fn_lookup_insert_ne, fn_lookup_insert by done. simpl.
  split; [by apply add_remove|]. split; [by apply add_remove|].
  split; [done|].
  unfold remove_connection. simpl.
  rewrite fn_lookup_insert_ne, fn_lookup_insert by done. simpl.
  rewrite decide_False by apply not_elem_of_remove. done.
Qed.

Lemma connect_disconnect_witness :
  ∃ c σ2,
    conns wired 0 = AConnection c
    ∧ Connection_disconnect wired 0 c = (Found tt, σ2)
    ∧ connections (ports σ2 0) = connections (ports three_ports 0).
Proof.
  destruct (connect_disconnect three_ports 0 1 5)
    as (c & σ2 & H1 & H2 & H3 & _).
  - discriminate.
  - simpl. apply not_elem_of_empty.
  - simpl. apply not_elem_of_empty.
  - exists c, σ2. split; [exact H1|]. split; [exact H2|exact H3].
Defined.

(** X13: a port connected to itself cannot be disconnected: the
    connection lists the port as destination and as source, the first
    loop of [disconnect] removes the connection from the port, and the
    second loop raises [KeyError]. *)
Theorem self_connection_disconnect (σ : store) (a : port_id) (sz : Z) :
  let k := next_conn σ in
  let σ1 := snd (OutputPort_connect σ a a sz) in
  ∃ c σ2,
    conns σ1 k = AConnection c
    ∧ k ∈ connections (ports σ1 a)
    ∧ Connection_disconnect σ1 k c = (KeyError, σ2)
    ∧ k ∉ connections (ports σ2 a).
Proof.
  intros k σ1.
  destruct (OutputPort_connect_store σ a a sz)
    as (_ & Hk & _ & Hcb & _ & _ & _).
  fold k σ1 in Hk, Hcb. clearbody σ1. eexists _, _. split; [exact Hk|].
  split; [rewrite Hcb; apply elem_of_add|].
  unfold Connection_disconnect. simpl. rewrite !elements_single. simpl.
  unfold remove_connection at 1. rewrite Hcb.
  rewrite decide_True by apply elem_of_add.
  unfold remove_connection. simpl. rewrite fn_lookup_insert. simpl.
  rewrite decide_False by apply not_elem_of_remove.
  split; [reflexivity|]. simpl. rewrite fn_lookup_insert. simpl.
  apply not_elem_of_remove.
Qed.

(** ** A stream from a source to a sink *)

Lemma pipe_connected_a (σ : store) (a b : port_id) (k : conn_id) (q : Queue) :
  pipe σ a b k q → is_connected (ports σ a) = true.
Proof.
  intros (_ & _ & _ & Ha & _). apply (is_connected_elem _ k).
  rewrite Ha. by apply elem_of_singleton.
Qed.

Lemma pipe_connected_b (σ : store) (a b : port_id) (k : conn_id) (q : Queue) :
  pipe σ a b k q → is_connected (ports σ b) = true.
Proof.
  intros (_ & _ & _ & _ & Hb & _). apply (is_connected_elem _ k).
  rewrite Hb. by apply elem_of_singleton.
Qed.

Lemma OutputPort_send_packet_pipe
    (σ : store) (a b : port_id) (k : conn_id) (q : Queue) (pkt : packet) :
  pipe σ a b k q → full q = false → may_send (ports σ a) pkt = true →
  ∃ σ', OutputPort_send_packet σ a pkt = (Return tt, σ')
        ∧ ports σ' = ports σ
        ∧ pipe σ' a b k (put_nowait q pkt).
Proof.
  intros Hpipe Hfull Hmay.
  pose proof (pipe_connected_a _ _ _ _ _ Hpipe) as Hcon.
  destruct Hpipe as (Hne & Hca & Hcb & Ha & Hb & Hla & Hlb & Hiip
                     & c & Hk & Hq).
  unfold OutputPort_send_packet. rewrite Hcon, Hmay, Ha.
  rewrite elements_singleton. simpl. rewrite Hk. simpl.
  unfold Connection_send. rewrite Hq, Hfull. simpl.
  rewrite Hla.
  eexists. split; [reflexivity|]. split; [done|].
  unfold pipe. rewrite !(log_call_loggers σ (broadcast σ {[k]} pkt))
    by reflexivity.
  simpl. rewrite Hca, Hcb, Ha, Hb, Hiip.
  split; [done|]. split; [done|]. split; [done|]. split; [done|].
  split; [done|]. split; [done|]. split; [done|]. split; [done|].
  rewrite decide_True by (by apply elem_of_singleton).
  rewrite Hk. simpl. unfold Connection_send. rewrite Hq, Hfull.
  eexists. split; [reflexivity|]. done.
Qed.

Lemma send_values_pipe (a b : port_id) (k : conn_id) (l : list payload) :
  ∀ (σ : store) (q : Queue),
    pipe σ a b k q → room q (length l) →
    ∃ σ', send_values σ a l = (Return tt, σ')
          ∧ ports σ' = ports σ
          ∧ pipe σ' a b k
              {| maxsize := maxsize q;
                 items := items q ++ map (λ v, InformationPacket v None) l;
                 unfinished_tasks := unfinished_tasks q + length l |}.
Proof.
  induction l as [|v l IH]; intros σ q Hpipe Hroom; simpl.
  - exists σ. split; [done|]. split; [done|].
    rewrite app_nil_r, Nat.add_0_r. by destruct q.
  - destruct (OutputPort_send_packet_pipe σ a b k q (InformationPacket v None)
                Hpipe) as (σ1 & Hs & Hp1 & Hpipe1).
    { by apply (full_room q (length l)). }
    { unfold may_send. apply orb_true_iff. right.
      by apply bool_decide_eq_true_2. }
    unfold send, send_packet.
    destruct Hpipe as (_ & Hca & _). rewrite Hca, Hs.
    destruct (IH σ1 _ Hpipe1) as (σ2 & Hs2 & Hp2 & Hpipe2).
    { unfold room, put_nowait in *. simpl in *. rewrite length_app. simpl.
      destruct Hroom as [?|?]; [by left|right; lia]. }
    exists σ2. split; [done|]. split; [congruence|].
    simpl in Hpipe2. rewrite <- app_assoc in Hpipe2. simpl in Hpipe2.
    by rewrite Nat.add_succ_r.
Qed.

Lemma OutputPort_close_pipe
    (σ : store) (a b : port_id) (k : conn_id) (q : Queue) (ca : comp_id) :
  pipe σ a b k q → full q = false → component (ports σ a) = Some ca →
  ∃ σ', OutputPort_close σ a = (Return tt, σ')
        ∧ open (ports σ' a) = false
        ∧ ports σ' b = ports σ b
        ∧ pipe σ' a b k (put_nowait q (EndOfStream (Some ca))).
Proof.
  intros Hpipe Hfull Hco.
  destruct (OutputPort_send_packet_pipe σ a b k q (EndOfStream (Some ca))
              Hpipe Hfull) as (σ1 & Hs & Hp1 & Hpipe1).
  { unfold may_send. apply orb_true_iff. left.
    apply bool_decide_eq_true_2. by rewrite Hco. }
  unfold OutputPort_close. rewrite Hco. simpl. rewrite Hs.
  destruct Hpipe1 as (Hne & Hca & Hcb & Ha & Hb & Hla & Hlb & Hiip
                      & c & Hk & Hq).
  rewrite Hla.
  eexists. split; [reflexivity|]. simpl.
  rewrite fn_lookup_insert, fn_lookup_insert_ne by done. rewrite Hp1.
  split; [done|]. split; [done|].
  unfold pipe.
  rewrite !(log_call_loggers σ1 (set_port σ1 a _)) by reflexivity.
  simpl.
  rewrite fn_lookup_insert, fn_lookup_insert_ne by done. rewrite <- Hp1.
  split; [done|]. split; [done|]. split; [done|]. split; [done|].
  split; [done|]. split; [exact Hla|]. split; [done|]. split; [done|].
  by exists c.
Qed.

Lemma receive_packet_pipe_data
    (σ : store) (a b : port_id) (k : conn_id) (q : Queue)
    (x : packet) (rest : list packet) (n : nat) :
  pipe σ a b k q → open (ports σ b) = true →
  items q = x :: rest → unfinished_tasks q = S n → is_eos x = false →
  ∃ σ', receive_packet σ b [k] = Some (Return (Some x), σ')
        ∧ ports σ' = ports σ
        ∧ pipe σ' a b k {| maxsize := maxsize q; items := rest;
                           unfinished_tasks := n |}.
Proof.
  intros Hpipe Hop Hi Hu Hx.
  pose proof (pipe_connected_b _ _ _ _ _ Hpipe) as Hcon.
  destruct Hpipe as (Hne & Hca & Hcb & Ha & Hb & Hla & Hlog & Hiip
                     & c & Hk & Hq).
  assert (conn_receive (conns σ k)
          = (Return x,
             AConnection (with_queue c {| maxsize := maxsize q; items := rest;
                                          unfinished_tasks := n |}))) as Hrec.
  { rewrite Hk. simpl. unfold Connection_receive. rewrite Hq, Hi.
    unfold task_done. simpl. by rewrite Hu. }
  unfold receive_packet, InputPort_receive_packet.
  rewrite Hcb, Hcon, Hop, Hlog, Hb. unfold wait_first.
  rewrite (bool_decide_eq_true_2 (NoDup [k])) by apply NoDup_singleton.
  simpl. rewrite (bool_decide_eq_true_2 (k ∈ _))
    by (by apply elem_of_singleton).
  unfold ready. rewrite Hrec. simpl.
  unfold deliver.
  rewrite (log_call_loggers σ (complete σ [k])) by reflexivity.
  simpl. rewrite Hlog, Hiip, Hx.
  eexists. split; [reflexivity|]. split; [done|].
  unfold pipe. rewrite !(log_call_loggers σ (complete σ [k])) by reflexivity.
  simpl. rewrite Hca, Hcb, Ha, Hb, Hiip.
  split; [done|]. split; [done|]. split; [done|]. split; [done|].
  split; [done|]. split; [done|]. split; [done|]. split; [done|].
  rewrite decide_True by apply list_elem_of_here. rewrite Hrec. simpl.
  eexists. split; [reflexivity|]. done.
Qed.

Lemma receive_packet_pipe_eos
    (σ : store) (a b : port_id) (k : conn_id) (q : Queue) (x : packet) :
  pipe σ a b k q → open (ports σ b) = true →
  items q = [x] → unfinished_tasks q = 1 → is_eos x = true →
  ∃ σ', receive_packet σ b [k] = Some (Raise StopAsyncIteration, σ')
        ∧ closed_input σ' b.
Proof.
  intros Hpipe Hop Hi Hu Hx.
  pose proof (pipe_connected_b _ _ _ _ _ Hpipe) as Hcon.
  destruct Hpipe as (Hne & Hca & Hcb & Ha & Hb & Hla & Hlog & Hiip
                     & c & Hk & Hq).
  assert (conn_receive (conns σ k)
          = (Return x,
             AConnection (with_queue c {| maxsize := maxsize q; items := [];
                                          unfinished_tasks := 0 |}))) as Hrec.
  { rewrite Hk. simpl. unfold Connection_receive. rewrite Hq, Hi.
    unfold task_done. simpl. by rewrite Hu. }
  unfold receive_packet, InputPort_receive_packet.
  rewrite Hcb, Hcon, Hop, Hlog, Hb. unfold wait_first.
  rewrite (bool_decide_eq_true_2 (NoDup [k])) by apply NoDup_singleton.
  simpl. rewrite (bool_decide_eq_true_2 (k ∈ _))
    by (by apply elem_of_singleton).
  unfold ready. rewrite Hrec. simpl.
  unfold deliver.
  rewrite (log_call_loggers σ (complete σ [k])) by reflexivity.
  simpl. rewrite Hlog, Hiip, Hx.
  unfold InputPort_close.
  rewrite (log_call_loggers σ (complete σ [k])) by reflexivity.
  simpl. rewrite Hiip, Hb.
  rewrite wait_joins_ready.
  2:{ rewrite size_singleton. lia. }
  2:{ intros k' Hk'. apply elem_of_singleton in Hk' as ->. simpl.
      rewrite decide_True by apply list_elem_of_here. by rewrite Hrec. }
  rewrite Hlog.
  rewrite (log_call_loggers σ (set_port _ _ _)) by reflexivity.
  simpl. rewrite fn_lookup_insert.
  change (log_call σ (with_open (ports σ b) false))
    with (log_call σ (ports σ b)).
  rewrite Hlog.
  eexists. split; [reflexivity|].
  unfold closed_input. simpl. rewrite fn_lookup_insert. simpl.
  split; [done|]. split; [|done]. exact Hcon.
Qed.

Lemma receive_packet_closed (σ : store) (p : port_id) (done : list conn_id) :
  closed_input σ p → receive_packet σ p done = Some (Raise PortClosedError, σ).
Proof.
  intros (Hcl & Hcon & Hop).
  unfold receive_packet, InputPort_receive_packet.
  by rewrite Hcl, Hcon, Hop.
Qed.

Lemma poll_port_pipe (a b : port_id) (k : conn_id) (o : option comp_id)
    (l : list payload) :
  ∀ (σ : store) (q : Queue),
    pipe σ a b k q → open (ports σ b) = true →
    items q = map (λ v, InformationPacket v None) l ++ [EndOfStream o] →
    unfinished_tasks q = S (length l) →
    ∃ σ', poll_port σ b (replicate (length l + 2) [k])
          = Some (map (λ v, Return (Some (InformationPacket v None))) l
                  ++ [Raise StopAsyncIteration; Raise PortClosedError], σ')
          ∧ closed_input σ' b.
Proof.
  induction l as [|v l IH]; intros σ q Hpipe Hop Hi Hu; simpl in *.
  - destruct (receive_packet_pipe_eos σ a b k q _ Hpipe Hop Hi Hu eq_refl)
      as (σ1 & Hr & Hcl).
    rewrite Hr, (receive_packet_closed σ1 b [k] Hcl). by exists σ1.
  - destruct (receive_packet_pipe_data σ a b k q _ _ _ Hpipe Hop Hi Hu eq_refl)
      as (σ1 & Hr & Hp1 & Hpipe1).
    rewrite Hr.
    destruct (IH σ1 _ Hpipe1) as (σ2 & Hpoll & Hcl); [by rewrite Hp1|done..|].
    rewrite Hpoll. by exists σ2.
Qed.

(** X14: a source sends the values of [l] on its output port and closes
    it; the port is joined to the input port of a sink by a connection
    with an empty queue that has room for the values and the
    [EndOfStream], and the components of both ports have a logger.  The
    source runs to its end with the port closed.  The
    sink then receives the packets of exactly these values in the order
    sent; the next [receive_packet] raises [StopAsyncIteration] and
    closes the input port, and the one after it raises
    [PortClosedError]. *)
Theorem stream_then_termination
    (σ : store) (a b : port_id) (k : conn_id) (sz : Z) (l : list payload)
    (ca : comp_id) :
  pipe σ a b k (new_Queue sz) →
  component (ports σ a) = Some ca →
  open (ports σ b) = true →
  (sz <= 0 ∨ Z.of_nat (length l) < sz)%Z →
  ∃ σ1 σ2,
    produce σ a l = (Return tt, σ1)
    ∧ open (ports σ1 a) = false
    ∧ poll_port σ1 b (replicate (length l + 2) [k])
      = Some (map (λ v, Return (Some (InformationPacket v None))) l
              ++ [Raise StopAsyncIteration; Raise PortClosedError], σ2)
    ∧ closed_input σ2 b.
Proof.
  intros Hpipe Hco Hop Hsz.
  destruct (send_values_pipe a b k l σ _ Hpipe) as (σ0 & Hs & Hp0 & Hpipe0).
  { unfold room. simpl. destruct Hsz; [by left|right; lia]. }
  simpl in Hpipe0.
  destruct (OutputPort_close_pipe σ0 a b k _ ca Hpipe0)
    as (σ1 & Hclose & Hopa & Hpb & Hpipe1).
  { apply (full_room _ 0). unfold room. simpl. rewrite length_map.
    destruct Hsz; [by left|right; lia]. }
  { by rewrite Hp0. }
  destruct (poll_port_pipe a b k (Some ca) l σ1 _ Hpipe1)
    as (σ2 & Hpoll & Hcl).
  { by rewrite Hpb, Hp0. }
  { reflexivity. }
  { reflexivity. }
  exists σ1, σ2. unfold produce. rewrite Hs. done.
Qed.

Lemma stream_then_termination_witness :
  ∃ σ1 σ2,
    produce wired 0 [1%Z; 2%Z; 3%Z] = (Return tt, σ1)
    ∧ open (ports σ1 0) = false
    ∧ poll_port σ1 1 (replicate 5 [0])
      = Some ([Return (Some (InformationPacket 1%Z None));
               Return (Some (InformationPacket 2%Z None));
               Return (Some (InformationPacket 3%Z None));
               Raise StopAsyncIteration; Raise PortClosedError], σ2)
    ∧ closed_input σ2 1.
Proof.
  refine (stream_then_termination wired 0 1 0 5 [1%Z; 2%Z; 3%Z] 10 _ _ _ _).
  - unfold pipe. split; [discriminate|]. split; [reflexivity|].
    split; [reflexivity|].
    split; [simpl; apply (right_id_L ∅ (∪))|].
    split; [simpl; apply (right_id_L ∅ (∪))|].
    split; [reflexivity|]. split; [reflexivity|]. split; [reflexivity|].
    eexists. split; reflexivity.
  - reflexivity.
  - reflexivity.
  - right. simpl. lia.
Defined.

(** ** Closing an output port *)

Lemma existsb_elements_true (f : conn_id → bool) (ks : gset conn_id)
    (k : conn_id) :
  k ∈ ks → f k = true → existsb f (elements ks) = true.
Proof.
  intros Hk Hf. apply existsb_exists. exists k. split; [|done].
  apply list_elem_of_In, elem_of_elements, Hk.
Qed.

(** X15: [close] on a connected output port of a component [c] that has
    a logger, when all connections of the port have queues.  If no queue
    is full, it returns with the port closed, and every bound queue holds
    what it held before followed by an [EndOfStream] owned by [c].  If a
    bound queue is full and its diagnostic can be logged (the source ports
    of the connection can log, and the connection has a destination whose
    ports have components), [close] is suspended and the port is as it
    was, still open if it was open. *)
Theorem OutputPort_close_outcome (σ : store) (p : port_id) (c : comp_id) :
  is_connected (ports σ p) = true →
  component (ports σ p) = Some c →
  c ∈ loggers σ →
  (∀ k, k ∈ connections (ports σ p) →
        ∃ cn q, conns σ k = AConnection cn ∧ _queue cn = Some q) →
  ((∀ k cn q, k ∈ connections (ports σ p) → conns σ k = AConnection cn →
              _queue cn = Some q → full q = false) →
   ∃ σ', OutputPort_close σ p = (Return tt, σ')
         ∧ open (ports σ' p) = false
         ∧ (∀ k cn q, k ∈ connections (ports σ p) →
              conns σ k = AConnection cn → _queue cn = Some q →
              ∃ q', conns σ' k
                    = AConnection {| _queue := Some q'; source := source cn;
                                     destination := destination cn |}
                    ∧ items q' = items q ++ [EndOfStream (Some c)]
                    ∧ maxsize q' = maxsize q)
         ∧ (∀ k, k ∉ connections (ports σ p) → conns σ' k = conns σ k))
  ∧ ((∃ k cn q, k ∈ connections (ports σ p) ∧ conns σ k = AConnection cn
                ∧ _queue cn = Some q ∧ full q = true
                ∧ (∀ s, s ∈ source cn → log_call σ (ports σ s) = Return tt)
                ∧ destination cn ≠ ∅
                ∧ ∀ d, d ∈ destination cn →
                       is_Some (component (ports σ d))) →
     ∃ σ', OutputPort_close σ p = (Suspend, σ') ∧ ports σ' = ports σ).
Proof.
  intros Hcon Hc Hlg Hq.
  assert (may_send (ports σ p) (EndOfStream (Some c)) = true) as Hmay.
  { unfold may_send. apply orb_true_iff. left.
    apply bool_decide_eq_true_2. by rewrite Hc. }
  assert (existsb (λ k, is_IIP (conns σ k)) (elements (connections (ports σ p)))
          = false) as Hiip.
  { apply existsb_elements_false. intros k Hk.
    by destruct (Hq k Hk) as (cn & q & -> & _). }
  assert (log_call σ (ports σ p) = Return tt) as Hlog
    by (unfold log_call; by rewrite Hc, decide_True).
  unfold OutputPort_close, OutputPort_send_packet. rewrite Hc. simpl.
  rewrite Hcon, Hmay, Hiip. split.
  - intros Hroom.
    rewrite (proj2 (existsb_elements_false _ _)).
    2:{ intros k Hk. destruct (Hq k Hk) as (cn & q & Hk' & Hq').
        rewrite Hk'. simpl. unfold Connection_send.
        by rewrite Hq', (Hroom k cn q Hk Hk' Hq'). }
    rewrite Hlog.
    rewrite (log_call_loggers σ (broadcast _ _ _)) by reflexivity.
    change (ports (broadcast σ (connections (ports σ p))
                     (EndOfStream (Some c)))) with (ports σ).
    rewrite Hlog.
    eexists. split; [reflexivity|]. simpl. rewrite fn_lookup_insert.
    split; [done|]. split.
    + intros k cn q Hk Hk' Hq'. rewrite decide_True by done.
      rewrite Hk'. simpl. unfold Connection_send.
      rewrite Hq', (Hroom k cn q Hk Hk' Hq').
      eexists. split; [reflexivity|]. done.
    + intros k Hk. by rewrite decide_False.
  - intros (k & cn & q & Hk & Hk' & Hq' & Hfull & Hsrc & Hne & Hdst).
    rewrite (existsb_elements_true
               (λ k, send_pending σ (conns σ k) (EndOfStream (Some c)))
               _ k Hk).
    2:{ rewrite Hk'. simpl.
        by rewrite (Connection_send_full σ cn q _ Hq' Hfull Hsrc Hne Hdst). }
    eexists. split; [reflexivity|]. done.
Qed.

Lemma OutputPort_close_outcome_witness :
  (∃ σ', OutputPort_close wired 0 = (Return tt, σ')
         ∧ open (ports σ' 0) = false)
  ∧ (∃ σ', OutputPort_close tight 0 = (Suspend, σ')
           ∧ ports σ' = ports tight).
Proof.
  assert (∀ (X : gset nat) (x k : nat), elements X = [x] → k ∈ X → k = x)
    as Hone.
  { intros X x k HX Hk. apply elem_of_elements in Hk. rewrite HX in Hk.
    apply elem_of_cons in Hk as [->|Hk]; [done|].
    by apply not_elem_of_nil in Hk. }
  split.
  - assert (∀ k, k ∈ connections (ports wired 0) →
                 ∃ cn q, conns wired k = AConnection cn ∧ _queue cn = Some q)
      as Hq.
    { intros k Hk. rewrite (Hone (connections (ports wired 0)) 0 k eq_refl Hk).
      eexists _, _. split; reflexivity. }
    assert (10 ∈ loggers wired) as Hlg by (vm_compute; reflexivity).
    destruct (proj1 (OutputPort_close_outcome wired 0 10 eq_refl eq_refl
                       Hlg Hq))
      as (σ' & H1 & H2 & _).
    + intros k cn q Hk Hk' Hq'.
      rewrite (Hone (connections (ports wired 0)) 0 k eq_refl Hk) in Hk'.
      injection Hk' as <-. injection Hq' as <-. reflexivity.
    + exists σ'. split; [exact H1|exact H2].
  - assert (∀ k, k ∈ connections (ports tight 0) →
                 ∃ cn q, conns tight k = AConnection cn ∧ _queue cn = Some q)
      as Hq.
    { intros k Hk. rewrite (Hone (connections (ports tight 0)) 0 k eq_refl Hk).
      eexists _, _. split; reflexivity. }
    assert (10 ∈ loggers tight) as Hlg by (vm_compute; reflexivity).
    refine (proj2 (OutputPort_close_outcome tight 0 10 eq_refl eq_refl
                     Hlg Hq) _).
    exists 0. eexists _, _.
    split; [vm_compute; reflexivity|]. split; [reflexivity|].
    split; [reflexivity|]. split; [reflexivity|]. split; [|split].
    + intros s Hs. rewrite (Hone _ 0 s (elements_single 0) Hs). reflexivity.
    + intros H. discriminate (f_equal elements H).
    + intros d Hd. rewrite (Hone _ 1 d (elements_single 1) Hd). by eexists.
Defined.

(** ** The race, given the event loop's choice *)

(** X16: what [receive_packet] takes from the connections is fixed by the
    set of receive tasks that are done when [asyncio.wait] returns.  The
    packet delivered is the result of the first of them.  Every other
    queue connection in the set has lost the packet at its head as well,
    and that packet is not part of the result; the connections outside
    the set are untouched.  With one task done, one connection gives one
    packet. *)
Theorem race_takes_every_done
    (σ σ' : store) (ks : gset conn_id) (w : conn_id) (rest : list conn_id)
    (pkt : packet) :
  wait_first σ ks (w :: rest) = Some (Return pkt, σ') →
  fst (conn_receive (conns σ w)) = Return pkt
  ∧ (∀ k, k ≠ w → k ∉ rest → conns σ' k = conns σ k)
  ∧ (∀ w' c q, w' ∈ rest → conns σ w' = AConnection c → _queue c = Some q →
       w' ≠ w
       ∧ ∃ x xs c' q',
           items q = x :: xs
           ∧ conns σ' w' = AConnection c'
           ∧ _queue c' = Some q'
           ∧ items q' = xs).
Proof.
  intros Hw. pose proof (wait_first_takes _ _ _ _ _ Hw) as [Hin Hout].
  unfold wait_first in Hw.
  destruct (bool_decide (NoDup (w :: rest)) && forallb _ (w :: rest))
    eqn:Hadm; [|done].
  injection Hw as Hr _.
  apply andb_true_iff in Hadm as [Hnd Hall].
  apply bool_decide_eq_true_1, list.NoDup_cons in Hnd as [Hnw _].
  rewrite forallb_forall in Hall.
  split; [done|]. split.
  - intros k Hk Hk'. apply Hout. intros Hd.
    apply elem_of_cons in Hd as [?|?]; done.
  - intros w' c q Hw' Hc Hq.
    split; [intros ->; done|].
    assert (w' ∈ w :: rest) as Hd by (by apply list_elem_of_further).
    destruct (Hin w' Hd) as [_ Hc'].
    specialize (Hall w' (proj1 (list_elem_of_In _ _) Hd)).
    apply andb_true_iff in Hall as [_ Hready].
    unfold ready in Hready. rewrite Hc' . rewrite Hc in *. simpl in *.
    unfold Connection_receive in *. rewrite Hq in *.
    destruct (items q) as [|x xs]; [done|].
    exists x, xs. unfold task_done. simpl.
    destruct (unfinished_tasks q); simpl; eexists _, _; done.
Qed.

Lemma race_takes_every_done_witness :
  fst (conn_receive (conns two_feeds 0)) = Return (InformationPacket 10%Z None)
  ∧ 1 ≠ 0
  ∧ ∃ x xs c' q',
      [InformationPacket 20%Z None] = x :: xs
      ∧ conns (complete two_feeds [0; 1]) 1 = AConnection c'
      ∧ _queue c' = Some q'
      ∧ items q' = xs.
Proof.
  destruct (race_takes_every_done two_feeds (complete two_feeds [0; 1])
              (connections (ports two_feeds 1)) 0 [1]
              (InformationPacket 10%Z None) eq_refl) as (H1 & _ & H3).
  split; [exact H1|].
  refine (H3 1 _ {| maxsize := 5; items := [InformationPacket 20%Z None];
                    unfinished_tasks := 1 |} _ eq_refl eq_refl).
  apply list_elem_of_here.
Defined.

(** ** One receive per port *)

(** X17: when all the names of a register stand for one port, and the
    port is open, [receive_packets] starts one [receive_packet] on it,
    however many names it has, and ends as that call does; the value
    returned is filed under the name of the port, not under a name of the
    register. *)
Theorem receive_packets_once_per_port
    (σ σ' : store) (reg : PortRegister) (sched : port_id → list conn_id)
    (p : port_id) (r : outcome (option packet)) :
  reg_ports reg ≠ [] →
  (∀ nm q, (nm, q) ∈ reg_ports reg → q = p) →
  open (ports σ p) = true →
  receive_packet σ p (sched p) = Some (r, σ') →
  receive_packets σ reg sched
  = Some (r ≫= λ v, Return [(name (ports σ p), v)], σ').
Proof.
  intros Hne Hall Hop Hr.
  assert (values reg = [p]) as Hv.
  { unfold values.
    assert ((list_to_set (reg_ports reg).*2 : gset port_id) = {[p]}) as ->;
      [|apply elements_singleton].
    apply set_eq. intros x.
    rewrite elem_of_list_to_set, elem_of_singleton, list_elem_of_fmap. split.
    - intros ([nm q] & -> & Hin). by apply (Hall nm).
    - intros ->. destruct (reg_ports reg) as [|[nm q] l]; [done|].
      exists (nm, q). split; [|apply list_elem_of_here].
      simpl. symmetry. apply (Hall nm). apply list_elem_of_here. }
  unfold receive_packets, tasks, issued. rewrite Hv.
  rewrite filter_cons_True by done. rewrite filter_nil. simpl.
  rewrite Hr. by destruct r.
Qed.

Lemma receive_packets_once_per_port_witness :
  receive_packets fed
    {| reg_component := Some 11;
       reg_ports := [("A"%string, 1); ("B"%string, 1)] |} (λ _, [0])
  = Some (Return [("IN"%string, Some (InformationPacket 42%Z None))],
          complete fed [0]).
Proof.
  refine (receive_packets_once_per_port fed (complete fed [0])
            {| reg_component := Some 11;
               reg_ports := [("A"%string, 1); ("B"%string, 1)] |}
            (λ _, [0]) 1 (Return (Some (InformationPacket 42%Z None)))
            _ _ _ _).
  - discriminate.
  - intros nm q Hin.
    apply elem_of_cons in Hin as [[= _ ->]|Hin]; [done|].
    apply elem_of_cons in Hin as [[= _ ->]|Hin]; [done|].
    by apply not_elem_of_nil in Hin.
  - reflexivity.
  - reflexivity.
Defined.

(** ** A port with an initial packet *)

(** X18: an input port that holds an initial packet is closed by the
    first [receive_packet] that returns a packet, whichever of its
    connections the packet came from; every later [receive_packet] raises
    [PortClosedError], so what its other connections hold is never
    received. *)
Theorem iip_port_closes_after_first
    (σ σ' : store) (p : port_id) (done : list conn_id) (pkt : packet) :
  class (ports σ p) = InputPort →
  _iip (ports σ p) = true →
  receive_packet σ p done = Some (Return (Some pkt), σ') →
  open (ports σ' p) = false
  ∧ ∀ done', receive_packet σ' p done' = Some (Raise PortClosedError, σ').
Proof.
  intros Hcl Hiip Hr.
  assert (is_connected (ports σ p) = true ∧ open (ports σ' p) = false)
    as [Hcon Hop].
  { revert Hr. unfold receive_packet, InputPort_receive_packet. rewrite Hcl.
    destruct (is_connected (ports σ p));
      [|destruct (optional (ports σ p)); [done|];
        by destruct (log_call σ (ports σ p))].
    destruct (open (ports σ p)); [|done].
    destruct (log_call σ (ports σ p)) eqn:Hlog; [|done..].
    destruct (wait_first _ _ _) as [[[x| |] σ1]|] eqn:Hw; [|done..].
    pose proof (wait_first_ports _ _ _ _ _ Hw) as Hp.
    pose proof (wait_first_loggers _ _ _ _ _ Hw) as Hl.
    unfold deliver. rewrite Hp, Hiip.
    rewrite (log_call_loggers σ σ1) by done. rewrite Hlog.
    unfold InputPort_close at 1. rewrite Hp, Hiip.
    rewrite (log_call_loggers σ σ1) by done. rewrite Hlog.
    destruct (is_eos x).
    - destruct (InputPort_close _ p) as [[[]| |] σ2]; [|done..].
      by destruct (log_call σ2 (ports σ2 p)).
    - intros [= _ <-]. split; [done|]. simpl. by rewrite fn_lookup_insert. }
  split; [done|]. intros done'. apply receive_packet_closed.
  apply receive_packet_effect in Hr as (_ & _ & Hq & _).
  unfold closed_input. destruct Hq as [Hq|Hq]; rewrite Hq in Hop |- *.
  - by repeat split.
  - by repeat split.
Qed.

Lemma iip_port_closes_after_first_witness :
  ∃ σ', receive_packet (set_initial_packet three_ports 1 5%Z) 1
          [next_conn three_ports]
        = Some (Return (Some (InformationPacket 5%Z (Some 11))), σ')
        ∧ open (ports σ' 1) = false.
Proof.
  eexists. split; [reflexivity|].
  refine (proj1 (iip_port_closes_after_first
                   (set_initial_packet three_ports 1 5%Z) _ 1
                   [next_conn three_ports]
                   (InformationPacket 5%Z (Some 11)) _ _ _));
    reflexivity.
Defined.
